(** * lattpy: the Bravais lattice core ([lattpy/base.py])

    A shallow embedding of [BravaisLattice] and of the numpy and Python
    operations it is written with, followed by the properties of the
    distance-shell discovery, the neighbour table and the vector algebra.

    Numbers are the program's own: a numpy [float64] is a binary64 value
    ([PrimFloat.float], IEEE 754 round-to-nearest-even), a Python [int] is a
    [Z].  A one-dimensional [ndarray] is a list, a two-dimensional one a list
    of rows. *)

From Stdlib Require Import String ZArith List Bool Lia Uint63 Floats Sorted.
From Stdlib Require Import FinFun.
From Stdlib Require Import DecimalString DecimalNat.
Import ListNotations.

Local Open Scope Z_scope.

Definition float64 := float.
Definition ndarray := list float64.
Definition matrix := list ndarray.

(** ** Exceptions and results *)

(** The exceptions the modelled code can raise.  [ValueError] keeps the
    array an f-string interpolates beside the text of the message. *)
Inductive exn : Type :=
| ConfigurationError (msg hint : string)
| ValueError (msg : string) (arg : ndarray)
| IndexError (msg : string).

Inductive outcome (A : Type) : Type :=
| Return (a : A)
| Raise (e : exn).
Arguments Return {A} a.
Arguments Raise {A} e.

Definition obind {A B} (c : outcome A) (k : A -> outcome B) : outcome B :=
  match c with
  | Return a => k a
  | Raise e => Raise e
  end.

Declare Scope outcome_scope.
Delimit Scope outcome_scope with outcome.
Notation "x <-! c ;; k" := (obind c (fun x => k))
  (at level 61, c at next level, right associativity) : outcome_scope.
Local Open Scope outcome_scope.

Fixpoint mapO {A B} (f : A -> outcome B) (l : list A) : outcome (list B) :=
  match l with
  | [] => Return []
  | x :: l' => y <-! f x ;; ys <-! mapO f l' ;; Return (y :: ys)
  end.

(** ** Python lists *)

Module py.

Definition len {A} (l : list A) : Z := Z.of_nat (length l).

(** [l[i]]: a negative index counts from the end, anything outside
    [-len, len) raises [IndexError]. *)
Definition getitem {A} (l : list A) (i : Z) : outcome A :=
  let j := if i <? 0 then i + len l else i in
  if j <? 0 then Raise (IndexError "list index out of range")
  else match nth_error l (Z.to_nat j) with
       | Some x => Return x
       | None => Raise (IndexError "list index out of range")
       end.

(** [l[0:k]]: a negative [k] counts from the end; bounds are clamped. *)
Definition slice_to {A} (l : list A) (k : Z) : list A :=
  let j := if k <? 0 then Z.max 0 (k + len l) else k in
  firstn (Z.to_nat j) l.

(** [l[k:]] for [k = -1]: the last element, as a list. *)
Definition slice_last {A} (l : list A) : list A :=
  skipn (length l - 1) l.

(** [range(n)]. *)
Definition range (n : Z) : list Z :=
  map Z.of_nat (seq 0 (Z.to_nat n)).

(** [list.remove(x)] with the elements' [==]: drops the first element
    equal to [x], [None] (a [ValueError]) when there is none. *)
Fixpoint remove {A} (eqb : A -> A -> bool) (x : A) (l : list A) : option (list A) :=
  match l with
  | [] => None
  | y :: l' => if eqb y x then Some l'
               else option_map (cons y) (remove eqb x l')
  end.

(** [list(set(l))]: one representative of every class of [==].  The order
    of a set's iteration is unspecified; every use below sorts next. *)
Fixpoint set {A} (eqb : A -> A -> bool) (l : list A) : list A :=
  match l with
  | [] => []
  | x :: l' => if existsb (eqb x) l' then set eqb l' else x :: set eqb l'
  end.

(** [list.sort()]: a stable sort that compares with [<] only. *)
Fixpoint insert {A} (ltb : A -> A -> bool) (x : A) (l : list A) : list A :=
  match l with
  | [] => [x]
  | y :: l' => if ltb y x then y :: insert ltb x l' else x :: l
  end.

Definition sort {A} (ltb : A -> A -> bool) (l : list A) : list A :=
  fold_right (insert ltb) [] l.

(** [itertools.product(xs, ys)]. *)
Definition product {A B} (xs : list A) (ys : list B) : list (A * B) :=
  flat_map (fun x => map (pair x) ys) xs.

End py.

(** ** numpy on binary64 *)

Module np.

Local Open Scope float_scope.

(** An [int64] cast to [float64]: correctly rounded, exact below
    [2^53]. *)
Definition of_Z (z : Z) : float64 :=
  match z with
  | Z0 => 0
  | Zpos _ => of_uint63 (Uint63.of_Z z)
  | Zneg p => - of_uint63 (Uint63.of_Z (Zpos p))
  end.

Definition is_finite (x : float64) : bool :=
  match Prim2SF x with
  | S754_zero _ | S754_finite _ _ _ => true
  | _ => false
  end.

(** [np.floor]: the largest integral value not above [x]. *)
Definition floor (x : float64) : float64 :=
  match Prim2SF x with
  | S754_finite s m e =>
      if (0 <=? e)%Z then x
      else of_Z (cond_Zopp s (Zpos m) / 2 ^ (- e))%Z
  | _ => x
  end.

(** [np.rint]: the nearest integral value, ties to even; the sign of
    [x] is kept. *)
Definition rint (x : float64) : float64 :=
  match Prim2SF x with
  | S754_finite s m e =>
      if (0 <=? e)%Z then x
      else
        let d := (2 ^ (- e))%Z in
        let q := (Zpos m / d)%Z in
        let r := (Zpos m mod d)%Z in
        let k := match (2 * r ?= d)%Z with
                 | Lt => q
                 | Gt => (q + 1)%Z
                 | Eq => if Z.even q then q else (q + 1)%Z
                 end in
        if s then - of_Z k else of_Z k
  | _ => x
  end.

(** [np.round(x, decimals)] for [decimals >= 0]: scale, [rint], unscale. *)
Definition round (x : float64) (decimals : Z) : float64 :=
  let f := of_Z (10 ^ decimals) in
  rint (x * f) / f.

Definition pi : float64 := 0x1.921fb54442d18p+1.

(** [np.arange(start, stop)] on integers. *)
Definition arange (start stop : Z) : list Z :=
  map (fun i => (start + Z.of_nat i)%Z) (seq 0 (Z.to_nat (stop - start))).

Definition zeros (n : nat) : ndarray := repeat 0 n.

(** An elementwise binary operation on one-dimensional arrays, with
    numpy's broadcasting: equal lengths, or one operand of length one. *)
Definition broadcast {A} (f : A -> A -> A) (err : exn) (a b : list A)
  : outcome (list A) :=
  if (length a =? length b)%nat then Return (map (fun p => f (fst p) (snd p)) (combine a b))
  else match a, b with
       | [x], _ => Return (map (f x) b)
       | _, [y] => Return (map (fun x => f x y) a)
       | _, _ => Raise err
       end.

Definition shape_error : exn :=
  ValueError "operands could not be broadcast together" [].

Definition add (a b : ndarray) : outcome ndarray := broadcast PrimFloat.add shape_error a b.
Definition subtract (a b : ndarray) : outcome ndarray := broadcast PrimFloat.sub shape_error a b.

(** [np.sum] of a short one-dimensional array. *)
Definition sum (a : ndarray) : float64 := fold_left PrimFloat.add a 0.

(** The inner product of a row with a vector of the same length: every
    product rounded, the sum taken from the left, as numpy's own loop does.
    A numpy that hands the product to a BLAS can fuse or reorder the terms,
    which can change the last bit of a sum of two and more products; one
    product, and sums whose other terms are zeros, do not depend on it. *)
Definition dot (a b : ndarray) : float64 :=
  sum (map (fun p => fst p * snd p) (combine a b)).

(** [m @ v] for a two-dimensional [m] and a one-dimensional [v]. *)
Definition matmul (m : matrix) (v : ndarray) : outcome ndarray :=
  if forallb (fun row => (length row =? length v)%nat) m
  then Return (map (fun row => dot row v) m)
  else Raise (ValueError "matmul: input operand has a mismatch in its core dimension" []).

(** [np.cross] of two three-dimensional vectors. *)
Definition cross (a b : ndarray) : outcome ndarray :=
  match a, b with
  | [a0; a1; a2], [b0; b1; b2] =>
      Return [a1 * b2 - a2 * b1; a2 * b0 - a0 * b2; a0 * b1 - a1 * b0]
  | _, _ => Raise (ValueError "incompatible dimensions for cross product" [])
  end.

(** [np.all(a == b)] for one-dimensional arrays of one shape; arrays of
    two shapes, which numpy broadcasts or refuses, are not compared the way
    numpy does, and the statements below that read the result keep to one
    shape. *)
Fixpoint all_eq (a b : ndarray) : bool :=
  match a, b with
  | [], [] => true
  | x :: a', y :: b' => (x =? y) && all_eq a' b'
  | _, _ => false
  end.

(** [m.T]. *)
Fixpoint transpose (m : matrix) : matrix :=
  match m with
  | [] => []
  | [r] => map (fun x => [x]) r
  | r :: m' => map (fun p => fst p :: snd p) (combine r (transpose m'))
  end.

End np.


(** ** [lattpy.utils]

    [base.py] imports [vrange], [distance] and [cell_volume] from
    [lattpy/utils.py]; they are modelled from what the specification says of
    them. *)

Module utils.

Local Open Scope float_scope.

(** Modelled from the spec: [vrange] (lattpy/utils.py), "every integer
    translation vector whose coordinates range over" the given axis
    ranges, "a dense hypercube": the Cartesian product of the ranges, one
    coordinate per axis. *)
Fixpoint vrange (axis_ranges : list (list Z)) : list (list Z) :=
  match axis_ranges with
  | [] => [[]]
  | r :: rs => flat_map (fun x => map (cons x) (vrange rs)) r
  end.

(** Modelled from the spec: [distance] (lattpy/utils.py), the "Euclidean
    distance" of two positions: the root of the sum of the squared
    coordinate differences. *)
Definition distance (r1 r2 : ndarray) : outcome float64 :=
  diff <-! np.subtract r1 r2 ;;
  Return (sqrt (np.sum (map (fun d => d * d) diff))).

(** Modelled from the spec: [cell_volume] (lattpy/utils.py), the volume
    of the unit cell the reciprocal vectors are scaled by: the length, the
    area or the volume spanned by the primitive vectors. *)
Definition cell_volume (vectors : matrix) : outcome float64 :=
  match vectors with
  | [[a]] => Return (abs a)
  | [[a0; a1]; [b0; b1]] => Return (abs (a0 * b1 - a1 * b0))
  | [a; b; c] => ab <-! np.cross a b ;; Return (abs (np.dot ab c))
  | _ => Raise (ValueError "cell_volume: unsupported dimension" [])
  end.

End utils.

(** ** The data model *)

Record Atom : Type := mkAtom
  { name : string;
    col : option string;
    size : Z }.

(** The address of a Python list object in the store. *)
Definition addr := nat.

(** A lattice index as the code hands it around: the tuple [(n, alpha)], or
    a reference to the list object [[*n, alpha]]. *)
Inductive pyidx : Type :=
| Tuple (n : list Z) (alpha : Z)
| Ref (a : addr).

(** The attributes of a [BravaisLattice] instance.  [cell_size] is left
    out: no operation below reads it.  [_base_neighbors] holds, per atom and
    per shell, references to the stored index lists [[*n, alpha]]. *)
Record BravaisLattice : Type := mkLattice
  { dim : nat;
    vectors : matrix;
    _vectors_inv : matrix;
    cell_volume : float64;
    origin : ndarray;
    n_base : nat;
    atoms : list Atom;
    atom_positions : list ndarray;
    n_dist : Z;
    distances : list float64;
    _base_neighbors : list (list (list addr)) }.

Definition DIST_DECIMALS : Z := 5.
Definition MIN_DISTS : Z := 3.

(** What a method can read and write: the instance, the store of list
    objects (the index lists of the neighbour table and of the results of
    [get_neighbours]) and the class-wide [Atom.COUNTER]. *)
Record State : Type := mkState
  { self : BravaisLattice;
    heap : list (list Z);
    COUNTER : nat }.

(** A method call: it returns or raises, and leaves a state either way. *)
Definition M (A : Type) : Type := State -> outcome A * State.

Definition ret {A} (a : A) : M A := fun s => (Return a, s).
Definition raise {A} (e : exn) : M A := fun s => (Raise e, s).
Definition bind {A B} (c : M A) (k : A -> M B) : M B :=
  fun s => match c s with
           | (Return a, s') => k a s'
           | (Raise e, s') => (Raise e, s')
           end.
Definition lift {A} (c : outcome A) : M A := fun s => (c, s).
Definition get_self : M BravaisLattice := fun s => (Return (self s), s).
Definition set_self (f : BravaisLattice -> BravaisLattice) : M unit :=
  fun s => (Return tt, mkState (f (self s)) (heap s) (COUNTER s)).

Declare Scope method_scope.
Delimit Scope method_scope with method.
Notation "x <- c ;; k" := (bind c (fun x => k))
  (at level 61, c at next level, right associativity) : method_scope.
Notation "c ;;; k" := (bind c (fun _ => k))
  (at level 61, right associativity) : method_scope.
Local Open Scope method_scope.

Fixpoint mapM {A B} (f : A -> M B) (l : list A) : M (list B) :=
  match l with
  | [] => ret []
  | x :: l' => y <- f x ;; ys <- mapM f l' ;; ret (y :: ys)
  end.

(** A new list object. *)
Definition alloc (l : list Z) : M addr :=
  fun s => (Return (length (heap s)), mkState (self s) (heap s ++ [l]) (COUNTER s)).

Definition deref (h : list (list Z)) (a : addr) : outcome (list Z) :=
  match nth_error h a with
  | Some l => Return l
  | None => Raise (IndexError "dangling reference")
  end.

(** An in-place update of the list object at [a]. *)
Fixpoint update {A} (h : list A) (a : nat) (l : A) : list A :=
  match h, a with
  | [], _ => []
  | _ :: h', O => l :: h'
  | x :: h', S a' => x :: update h' a' l
  end.

Definition store (a : addr) (l : list Z) : M unit :=
  fun s => (Return tt, mkState (self s) (update (heap s) a l) (COUNTER s)).

(** Attribute assignments. *)
Definition set_atoms (v : list Atom) (L : BravaisLattice) : BravaisLattice :=
  mkLattice (dim L) (vectors L) (_vectors_inv L) (cell_volume L) (origin L)
    (n_base L) v (atom_positions L) (n_dist L) (distances L) (_base_neighbors L).
Definition set_atom_positions (v : list ndarray) (L : BravaisLattice) : BravaisLattice :=
  mkLattice (dim L) (vectors L) (_vectors_inv L) (cell_volume L) (origin L)
    (n_base L) (atoms L) v (n_dist L) (distances L) (_base_neighbors L).
Definition set_n_base (v : nat) (L : BravaisLattice) : BravaisLattice :=
  mkLattice (dim L) (vectors L) (_vectors_inv L) (cell_volume L) (origin L)
    v (atoms L) (atom_positions L) (n_dist L) (distances L) (_base_neighbors L).
Definition set_n_dist (v : Z) (L : BravaisLattice) : BravaisLattice :=
  mkLattice (dim L) (vectors L) (_vectors_inv L) (cell_volume L) (origin L)
    (n_base L) (atoms L) (atom_positions L) v (distances L) (_base_neighbors L).
Definition set_distances (v : list float64) (L : BravaisLattice) : BravaisLattice :=
  mkLattice (dim L) (vectors L) (_vectors_inv L) (cell_volume L) (origin L)
    (n_base L) (atoms L) (atom_positions L) (n_dist L) v (_base_neighbors L).
Definition set_base_neighbors (v : list (list (list addr))) (L : BravaisLattice) : BravaisLattice :=
  mkLattice (dim L) (vectors L) (_vectors_inv L) (cell_volume L) (origin L)
    (n_base L) (atoms L) (atom_positions L) (n_dist L) (distances L) v.

(** ** [BravaisLattice]: vector algebra *)

Section Construction.

(** [np.linalg.inv] is numpy's (LAPACK), not the repository's: the
    constructor is stated for any inversion routine. *)
Variable linalg_inv : matrix -> outcome matrix.

(** [BravaisLattice(vectors)] for a two-dimensional [vectors]. *)
Definition __init__ (vectors : matrix) : outcome BravaisLattice :=
  let vectors := np.transpose vectors in
  let dim := length vectors in
  inv <-! linalg_inv vectors ;;
  vol <-! utils.cell_volume vectors ;;
  Return (mkLattice dim vectors inv vol (np.zeros dim) 0 [] [] 0 [] []).

Definition chain (a : float64) : outcome BravaisLattice :=
  __init__ [[a]].

Definition square (a : float64) : outcome BravaisLattice :=
  __init__ [[a * 1; a * 0]; [a * 0; a * 1]]%float.

Definition rectangular (a1 a2 : float64) : outcome BravaisLattice :=
  __init__ [[a1; 0]; [0; a2]]%float.

Definition hexagonal (a : float64) : outcome BravaisLattice :=
  let h := (a / 2)%float in
  __init__ [[h * 3; h * sqrt 3]; [h * 3; h * - sqrt 3]]%float.

End Construction.

(** [vecs = np.eye(3); vecs[:dim, :dim] = vectors]. *)
Definition embed3 (d : nat) (v : matrix) : matrix :=
  map (fun i =>
         map (fun j =>
                if (i <? d)%nat && (j <? d)%nat then nth j (nth i v []) 0%float
                else if (i =? j)%nat then 1%float else 0%float)
             (seq 0 3))
      (seq 0 3).

Definition reciprocal_vectors (L : BravaisLattice) : outcome matrix :=
  if (3 <? dim L)%nat
  then Raise (ValueError "could not broadcast input array" [])
  else
    match embed3 (dim L) (vectors L) with
    | [a1; a2; a3] =>
        let factor := (2 * np.pi / cell_volume L)%float in
        c1 <-! np.cross a2 a3 ;;
        c2 <-! np.cross a3 a1 ;;
        c3 <-! np.cross a1 a2 ;;
        let scale := map (PrimFloat.mul factor) in
        let rvecs := [scale c1; scale c2; scale c3] in
        Return (map (firstn (dim L)) (firstn (dim L) rvecs))
    | _ => Raise (ValueError "not enough values to unpack" [])
    end.



(** [get_position(n, alpha)]; the integer coordinates of [n] are cast to
    [float64] by the product. *)
Definition get_position (L : BravaisLattice) (n : option (list Z)) (alpha : Z)
  : outcome ndarray :=
  r <-! py.getitem (atom_positions L) alpha ;;
  match n with
  | None => Return r
  | Some n => t <-! np.matmul (vectors L) (map np.of_Z n) ;; np.add r t
  end.

Definition distance (L : BravaisLattice) (idx0 idx1 : list Z * Z) : outcome float64 :=
  r1 <-! get_position L (Some (fst idx0)) (snd idx0) ;;
  r2 <-! get_position L (Some (fst idx1)) (snd idx1) ;;
  utils.distance r1 r2.

(** ** Neighbour candidates and the single-shell matcher *)

Definition _neighbour_range (L : BravaisLattice) (n : option (list Z)) (cell_range : Z)
  : outcome (list (list Z * Z)) :=
  let n := match n with None => repeat 0 (dim L) | Some n => n end in
  let offset := cell_range + 2 in
  ranges <-! mapO (fun d => nd <-! py.getitem n d ;;
                            Return (np.arange (nd - offset) (nd + offset + 1)))
                  (py.range (Z.of_nat (dim L))) ;;
  let n_vecs := utils.vrange ranges in
  Return (flat_map (fun n => map (pair n) (py.range (Z.of_nat (n_base L)))) n_vecs).

Fixpoint filterO {A} (f : A -> outcome bool) (l : list A) : outcome (list A) :=
  match l with
  | [] => Return []
  | x :: l' =>
      b <-! f x ;; r <-! filterO f l' ;; Return (if b then x :: r else r)
  end.

(** The test of the loop of [calculate_neighbours]. *)
Definition is_neighbour (L : BravaisLattice) (idx : list Z * Z) (dist : float64)
  (idx1 : list Z * Z) : outcome bool :=
  d <-! distance L idx idx1 ;;
  Return (np.round (abs (d - dist)) DIST_DECIMALS =? 0)%float.

(** The indices the loop of [calculate_neighbours] accepts, in order. *)
Definition neighbour_matches (L : BravaisLattice) (n : option (list Z)) (alpha dist_idx : Z)
  : outcome (list (list Z * Z)) :=
  let n := match n with None => repeat 0 (dim L) | Some n => n end in
  let idx := (n, alpha) in
  dist <-! py.getitem (distances L) dist_idx ;;
  cands <-! _neighbour_range L (Some n) dist_idx ;;
  filterO (is_neighbour L idx dist) cands.

(** [calculate_neighbours(n, alpha, dist_idx, array)]: with [array] every
    accepted index becomes a new list object [[*n, alpha]]. *)
Definition calculate_neighbours (n : option (list Z)) (alpha dist_idx : Z) (array : bool)
  : M (list pyidx) :=
  L <- get_self ;;
  indices <- lift (neighbour_matches L n alpha dist_idx) ;;
  mapM (fun idx1 : list Z * Z =>
          if array then a <- alloc (fst idx1 ++ [snd idx1]) ;; ret (Ref a)
          else ret (Tuple (fst idx1) (snd idx1)))
       indices.

Definition refs_of (l : list pyidx) : list addr :=
  flat_map (fun i => match i with Ref a => [a] | Tuple _ _ => [] end) l.

(** ** Distance shells and the neighbour table *)

(** [n = max(num_dist + 1, MIN_DISTS)]. *)
Definition search_radius (num_dist : Z) : Z :=
  Z.max (num_dist + 1) MIN_DISTS.

(** [n_vecs = vrange(dim * [np.arange(-n, n)])]. *)
Definition n_vecs (d : nat) (n : Z) : list (list Z) :=
  utils.vrange (repeat (np.arange (- n) n) d).

(** The image positions [r_vecs] for the search radius [n]. *)
Definition candidate_positions (L : BravaisLattice) (n : Z) : outcome (list ndarray) :=
  let n_vecs := n_vecs (dim L) n in
  mapO (fun p : list Z * Z => get_position L (Some (fst p)) (snd p))
       (flat_map (fun nvec => map (pair nvec) (py.range (Z.of_nat (n_base L)))) n_vecs).

(** The rounded distances of every image to every basis position. *)
Definition rounded_distances (L : BravaisLattice) (n : Z) : outcome (list float64) :=
  r_vecs <-! candidate_positions L n ;;
  ds <-! mapO (fun p : ndarray * ndarray => utils.distance (fst p) (snd p))
              (py.product r_vecs (atom_positions L)) ;;
  Return (map (fun d => np.round d DIST_DECIMALS) ds).

Definition no_atoms : exn :=
  ConfigurationError "No atoms found in the lattice!"
                     "Use 'add_atom' to add an 'Atom'-object".

(** [if num_dist is None: num_dist = len(self.atoms)]. *)
Definition shell_count (L : BravaisLattice) (num_dist : option Z) : Z :=
  match num_dist with
  | None => py.len (atoms L)
  | Some k => k
  end.

Definition calculate_distances (num_dist : option Z) : M unit :=
  L <- get_self ;;
  if py.len (atoms L) =? 0 then raise no_atoms
  else
    let num_dist := shell_count L num_dist in
    let n := search_radius num_dist in
    ds <- lift (rounded_distances L n) ;;
    let sorted := py.sort PrimFloat.ltb (py.set PrimFloat.eqb ds) in
    match py.remove PrimFloat.eqb 0%float sorted with
    | None => raise (ValueError "list.remove(x): x not in list" [])
    | Some nonzero =>
        set_self (set_distances (py.slice_to nonzero (n - 1))) ;;;
        set_self (set_n_dist num_dist) ;;;
        L <- get_self ;;
        neighbours <-
          mapM (fun alpha =>
                  mapM (fun i_dist =>
                          r <- calculate_neighbours None alpha i_dist true ;;
                          ret (refs_of r))
                       (py.range (py.len (distances L))))
               (py.range (Z.of_nat (n_base L))) ;;
        set_self (set_base_neighbors neighbours)
    end.

(** ** The atomic basis *)

(** [name or str(idx)]. *)
Definition Atom_name (nm : option string) (idx : nat) : string :=
  match nm with
  | Some (String c r) => String c r
  | _ => NilEmpty.string_of_uint (Nat.to_uint idx)
  end.

(** [Atom(name)]: draws the next value of the class counter, also when a
    name is given. *)
Definition Atom_init (nm : option string) : M Atom :=
  fun s =>
    let idx := COUNTER s in
    (Return (mkAtom (Atom_name nm idx) None 10), mkState (self s) (heap s) (S idx)).

(** [pos = np.zeros(self.vectors.shape[0])] when [pos is None]. *)
Definition position_of (L : BravaisLattice) (pos : option ndarray) : ndarray :=
  match pos with
  | None => np.zeros (length (vectors L))
  | Some p => p
  end.

Definition add_atom (pos : option ndarray) (atom : Atom + option string) (neighbours : Z)
  : M Atom :=
  L <- get_self ;;
  let pos := position_of L pos in
  if existsb (np.all_eq pos) (atom_positions L)
  then raise (ValueError "Position {pos} already occupied!" pos)
  else
    atom <- match atom with
            | inl a => ret a
            | inr nm => Atom_init nm
            end ;;
    set_self (fun L => set_atoms (atoms L ++ [atom]) L) ;;;
    set_self (fun L => set_atom_positions (atom_positions L ++ [pos]) L) ;;;
    set_self (fun L => set_n_base (length (atom_positions L)) L) ;;;
    (if neighbours =? 0 then ret tt else calculate_distances (Some neighbours)) ;;;
    ret atom.

(** ** Neighbour queries *)

Definition not_configured : exn :=
  ConfigurationError
    "Base neighbours not configured."
    "Use the 'neighbours' keyword of 'add_atom' or call 'calculate_distances' after adding the atoms!".

(** [idx_t = idx.copy(); idx_t[:-1] += n]: the copy is a new list object;
    the sum of its slice with the array [n] is numpy's elementwise sum, and
    the slice assignment writes it back into the copy.  The coordinates,
    [float64] values of integers in the code, are the integers themselves
    here: the sums agree below [2^53]. *)
Definition transformed_copy (n : list Z) (a : addr) : M pyidx :=
  l <- (fun s => (deref (heap s) a, s)) ;;
  a_t <- alloc l ;;
  l_t <- (fun s => (deref (heap s) a_t, s)) ;;
  moved <- lift (np.broadcast Z.add np.shape_error (removelast l_t) n) ;;
  store a_t (moved ++ py.slice_last l_t) ;;;
  ret (Ref a_t).

Definition get_neighbours (idx : list Z) (dist_idx : Z) : M (list pyidx) :=
  L <- get_self ;;
  match _base_neighbors L with
  | [] => raise not_configured
  | _ =>
      let n := removelast idx in
      alpha <- lift (py.getitem idx (-1)) ;;
      site <- lift (py.getitem (_base_neighbors L) alpha) ;;
      entries <- lift (py.getitem site dist_idx) ;;
      mapM (transformed_copy n) entries
  end.

Definition get_neighbour_vectors (alpha dist_idx : Z) (include_zero : bool)
  : M (list ndarray) :=
  fun s =>
    let L := self s in
    match _base_neighbors L with
    | [] => (Raise not_configured, s)
    | _ =>
        (pos0 <-! py.getitem (atom_positions L) alpha ;;
         site <-! py.getitem (_base_neighbors L) alpha ;;
         entries <-! py.getitem site dist_idx ;;
         vs <-! mapO (fun a =>
                        l <-! deref (heap s) a ;;
                        a1 <-! py.getitem l (-1) ;;
                        pos1 <-! get_position L (Some (removelast l)) a1 ;;
                        np.subtract pos1 pos0)
                     entries ;;
         Return ((if include_zero then [np.zeros (dim L)] else []) ++ vs), s)
    end.

(** ** The reciprocal lattice *)

Section Reciprocal.

Variable linalg_inv : matrix -> outcome matrix.

(** [reciprocal_lattice()]: a new instance; [self] is left as it was, the
    shells of the new instance are computed in the same store. *)
Definition reciprocal_lattice : M BravaisLattice :=
  fun s =>
    let L := self s in
    match (rv <-! reciprocal_vectors L ;; __init__ linalg_inv (np.transpose rv)) with
    | Raise e => (Raise e, s)
    | Return latt =>
        match n_base L with
        | O => (Return latt, s)
        | _ =>
            let latt := set_atom_positions (atom_positions L)
                          (set_atoms (atoms L) (set_n_base (n_base L) latt)) in
            let (r, s') := calculate_distances (Some (n_dist L))
                             (mkState latt (heap s) (COUNTER s)) in
            let back := mkState L (heap s') (COUNTER s') in
            match r with
            | Return _ => (Return (self s'), back)
            | Raise e => (Raise e, back)
            end
        end
    end.

End Reciprocal.

(** [np.linalg.inv] on a diagonal matrix with positive entries: the
    factorisation is trivial and every entry of the inverse is one correctly
    rounded division.  It is used on such matrices only. *)
Definition inv_diag (m : matrix) : outcome matrix :=
  Return (map (fun i =>
                 map (fun j => if (i =? j)%nat
                               then (1 / nth j (nth i m []) 0)%float
                               else 0%float)
                     (seq 0 (length m)))
              (seq 0 (length m))).

(** * Properties *)

(** ** Results of the fallible helpers *)

Lemma obind_Return {A B} (c : outcome A) (k : A -> outcome B) (b : B) :
  obind c k = Return b -> exists a, c = Return a /\ k a = Return b.
Proof.
  destruct c as [a|e]; simpl; intros H; [eauto | discriminate].
Qed.

Lemma mapO_total {A B} (f : A -> outcome B) (g : A -> B) (l : list A) :
  (forall x, In x l -> f x = Return (g x)) -> mapO f l = Return (map g l).
Proof.
  induction l as [|x l IH]; intros H; simpl; [reflexivity|].
  rewrite (H x (or_introl eq_refl)); simpl.
  rewrite IH by (intros y Hy; apply H; now right).
  reflexivity.
Qed.

Lemma getitem_nat {A} (l : list A) (k : nat) (x : A) :
  nth_error l k = Some x -> py.getitem l (Z.of_nat k) = Return x.
Proof.
  intros H. unfold py.getitem.
  destruct (Z.ltb_spec (Z.of_nat k) 0) as [Hlt|_]; [lia|].
  destruct (Z.ltb_spec (Z.of_nat k) 0) as [Hlt|_]; [lia|].
  now rewrite Nat2Z.id, H.
Qed.

Lemma getitem_In {A} (l : list A) (i : Z) (x : A) :
  py.getitem l i = Return x -> In x l.
Proof.
  unfold py.getitem.
  set (j := if i <? 0 then i + py.len l else i).
  destruct (j <? 0); [discriminate|].
  destruct (nth_error l (Z.to_nat j)) eqn:E; intros H; inversion H; subst.
  eapply nth_error_In; eauto.
Qed.

(** ** Ranges and the hypercube of translation vectors *)

Lemma In_arange (a b x : Z) : In x (np.arange a b) <-> a <= x < b.
Proof.
  unfold np.arange. rewrite in_map_iff. split.
  - intros (i & <- & Hi). apply in_seq in Hi. lia.
  - intros H. exists (Z.to_nat (x - a)). split; [lia|].
    apply in_seq. lia.
Qed.

Lemma In_range (n x : Z) : In x (py.range n) <-> 0 <= x < n.
Proof.
  unfold py.range. rewrite in_map_iff. split.
  - intros (i & <- & Hi). apply in_seq in Hi. lia.
  - intros H. exists (Z.to_nat x). split; [lia|]. apply in_seq. lia.
Qed.

Lemma In_vrange (rs : list (list Z)) (v : list Z) :
  In v (utils.vrange rs) <-> Forall2 (fun x r => In x r) v rs.
Proof.
  revert v. induction rs as [|r rs IH]; intros v; simpl.
  - split.
    + intros [<-|[]]. constructor.
    + intros H. inversion H. now left.
  - rewrite in_flat_map. split.
    + intros (x & Hx & Hv). apply in_map_iff in Hv as (w & <- & Hw).
      constructor; [assumption|]. now apply IH.
    + intros H. inversion H as [|x r' w rs' Hx Hw]; subst.
      exists x. split; [assumption|]. apply in_map_iff.
      exists w. split; [reflexivity|]. now apply IH.
Qed.

Lemma Forall2_repeat_r {A B} (P : A -> B -> Prop) (v : list A) (r : B) (d : nat) :
  Forall2 P v (repeat r d) <-> length v = d /\ Forall (fun x => P x r) v.
Proof.
  revert v. induction d as [|d IH]; intros v; simpl.
  - split.
    + intros H. inversion H. split; [reflexivity | constructor].
    + intros [H _]. destruct v; [constructor | discriminate].
  - split.
    + intros H. inversion H as [|x r' w rs' Hx Hw]; subst.
      apply IH in Hw as [Hl Hf]. split; [simpl; congruence | now constructor].
    + intros [Hl Hf]. destruct v as [|x w]; [discriminate|].
      inversion Hf; subst. constructor; [assumption|].
      apply IH. split; [now inversion Hl | assumption].
Qed.

(** The vectors [calculate_distances] enumerates: every coordinate runs
    over the half-open interval [[-n, n)]. *)
Lemma In_n_vecs (d : nat) (n : Z) (v : list Z) :
  In v (n_vecs d n) <-> length v = d /\ Forall (fun x => - n <= x < n) v.
Proof.
  unfold n_vecs. rewrite In_vrange, Forall2_repeat_r.
  split; intros [Hl Hf]; (split; [assumption|]);
    eapply Forall_impl; try eassumption; intros x; apply In_arange.
Qed.

Lemma search_radius_ge (num_dist : Z) : 3 <= search_radius num_dist.
Proof. unfold search_radius, MIN_DISTS. lia. Qed.

(** ** Concrete lattices *)

Definition atom0 : Atom := mkAtom "0" None 10.

Definition state_of (L : BravaisLattice) : State := mkState L [] 0.

(** [chain(a=1.0)] with one atom at the origin. *)
Definition chain_1 : BravaisLattice :=
  mkLattice 1 [[1%float]] [[1%float]] 1%float [0%float]
            1 [atom0] [[0%float]] 0 [] [].

Example chain_1_built :
  (L <-! chain inv_diag 1%float ;;
   Return (snd (add_atom (Some [0%float]) (inr None) 0 (state_of L))))
  = Return (mkState chain_1 [] 1).
Proof. vm_compute. reflexivity. Qed.

(** ** The search hypercube of [calculate_distances] *)

(** C2 (evaluation at the failing input).  For [num_dist = 1] in one
    dimension the search radius is [n = 3]; [np.arange(-n, n)] stops before
    [n], so the enumerated translation vectors are [-3 .. 2] and the vector
    [[3]], which lies in the inclusive interval [[-3, 3]], is not among
    them. *)
Theorem calculate_distances_range_excludes_upper_bound :
  search_radius 1 = 3
  /\ n_vecs (dim chain_1) (search_radius 1) = [[-3]; [-2]; [-1]; [0]; [1]; [2]]
  /\ ~ In [3] (n_vecs (dim chain_1) (search_radius 1)).
Proof.
  split; [reflexivity|]. split; [reflexivity|].
  rewrite In_n_vecs. intros [_ H]. inversion H; subst.
  unfold search_radius, MIN_DISTS in *. lia.
Qed.

(** ** The candidates of the single-shell matcher *)

Lemma map_nth_seq_app {A B} (f : A -> B) (d : A) (pre l : list A) :
  map (fun k => f (nth k (pre ++ l) d)) (seq (length pre) (length l)) = map f l.
Proof.
  revert pre. induction l as [|x l IH]; intros pre; simpl; [reflexivity|].
  f_equal.
  - now rewrite app_nth2, Nat.sub_diag by lia.
  - specialize (IH (pre ++ [x])).
    rewrite <- app_assoc, length_app in IH. simpl in IH.
    now rewrite Nat.add_1_r in IH.
Qed.

Lemma mapO_getitem_range {B} (f : Z -> B) (n : list Z) :
  mapO (fun d => nd <-! py.getitem n d ;; Return (f nd))
       (py.range (Z.of_nat (length n)))
  = Return (map f n).
Proof.
  unfold py.range. rewrite Nat2Z.id.
  rewrite (mapO_total _ (fun i => f (nth (Z.to_nat i) n 0))).
  - rewrite map_map.
    rewrite (map_ext _ (fun k => f (nth k ([] ++ n) 0)))
      by (intros k; now rewrite Nat2Z.id).
    f_equal. exact (map_nth_seq_app f 0 [] n).
  - intros i Hi. apply in_map_iff in Hi as (k & <- & Hk). apply in_seq in Hk.
    destruct (nth_error n k) as [x|] eqn:E.
    + rewrite (getitem_nat _ _ _ E). simpl. rewrite Nat2Z.id.
      now rewrite (nth_error_nth _ _ _ E).
    + apply nth_error_None in E. lia.
Qed.

Lemma Forall2_map_r_iff {A B C} (P : A -> C -> Prop) (g : B -> C) (l : list A) (n : list B) :
  Forall2 P l (map g n) <-> Forall2 (fun x y => P x (g y)) l n.
Proof.
  revert l. induction n as [|y n IH]; intros l; simpl.
  - split; intros H; inversion H; constructor.
  - split; intros H; inversion H; subst; constructor; try assumption; now apply IH.
Qed.

Lemma In_cell_indices (vecs : list (list Z)) (nb : Z) (m : list Z) (a : Z) :
  In (m, a) (flat_map (fun n => map (pair n) (py.range nb)) vecs)
  <-> In m vecs /\ 0 <= a < nb.
Proof.
  rewrite in_flat_map. split.
  - intros (n & Hn & H). apply in_map_iff in H as (b & E & Hb).
    inversion E; subst. split; [assumption | now apply In_range].
  - intros [Hm Ha]. exists m. split; [assumption|].
    apply in_map_iff. exists a. split; [reflexivity | now apply In_range].
Qed.

(** The translation vector [m] lies within [r] of [n] in every
    coordinate. *)
Definition within (r : Z) (m n : list Z) : Prop :=
  Forall2 (fun x o => o - r <= x <= o + r) m n.

Lemma _neighbour_range_spec (L : BravaisLattice) (n : list Z) (i : Z) :
  length n = dim L ->
  exists cands,
    _neighbour_range L (Some n) i = Return cands
    /\ forall m a, In (m, a) cands
                   <-> within (i + 2) m n /\ 0 <= a < Z.of_nat (n_base L).
Proof.
  intros Hn. unfold _neighbour_range. rewrite <- Hn.
  rewrite (mapO_getitem_range
             (fun nd => np.arange (nd - (i + 2)) (nd + (i + 2) + 1)) n).
  simpl. eexists. split; [reflexivity|].
  intros m a. rewrite In_cell_indices, In_vrange, Forall2_map_r_iff.
  unfold within. split; intros [H Ha]; (split; [|assumption]);
    (eapply Forall2_impl; [|exact H]); intros x o; cbv beta;
    rewrite In_arange; lia.
Qed.

Lemma NoDup_arange (a b : Z) : NoDup (np.arange a b).
Proof.
  unfold np.arange. apply Injective_map_NoDup; [|apply seq_NoDup].
  intros x y H. lia.
Qed.

Lemma NoDup_range (n : Z) : NoDup (py.range n).
Proof.
  unfold py.range. apply Injective_map_NoDup; [|apply seq_NoDup].
  intros x y H. lia.
Qed.

Lemma NoDup_flat_map {A B} (f : A -> list B) (l : list A) :
  NoDup l -> (forall x, In x l -> NoDup (f x)) ->
  (forall x y z, In x l -> In y l -> In z (f x) -> In z (f y) -> x = y) ->
  NoDup (flat_map f l).
Proof.
  induction 1 as [|x l Hx Hl IH]; intros Hf Hd; simpl; [constructor|].
  apply NoDup_app.
  - apply Hf. now left.
  - apply IH.
    + intros y Hy. apply Hf. now right.
    + intros y1 y2 z H1 H2. apply Hd; now right.
  - intros z Hz Hz'. apply in_flat_map in Hz' as (y & Hy & Hzy).
    assert (x = y) by (apply (Hd x y z); auto; [now left | now right]).
    subst y. contradiction.
Qed.

Lemma NoDup_vrange (rs : list (list Z)) :
  Forall (@NoDup Z) rs -> NoDup (utils.vrange rs).
Proof.
  induction 1 as [|r rs Hr _ IH]; simpl.
  - constructor; [intros []|constructor].
  - apply NoDup_flat_map; [assumption| |].
    + intros x _. apply Injective_map_NoDup; [|assumption].
      intros v w H. now inversion H.
    + intros x y z _ _ Hx Hy.
      apply in_map_iff in Hx as (v & <- & _).
      apply in_map_iff in Hy as (w & E & _). now inversion E.
Qed.

Lemma NoDup_cell_indices (vecs : list (list Z)) (nb : Z) :
  NoDup vecs -> NoDup (flat_map (fun n => map (pair n) (py.range nb)) vecs).
Proof.
  intros H. apply NoDup_flat_map; [assumption| |].
  - intros x _. apply Injective_map_NoDup; [|apply NoDup_range].
    intros v w E. now inversion E.
  - intros x y z _ _ Hx Hy.
    apply in_map_iff in Hx as (v & <- & _).
    apply in_map_iff in Hy as (w & E & _). now inversion E.
Qed.

Lemma _neighbour_range_NoDup (L : BravaisLattice) (n : list Z) (i : Z)
  (cands : list (list Z * Z)) :
  length n = dim L -> _neighbour_range L (Some n) i = Return cands -> NoDup cands.
Proof.
  intros Hn. unfold _neighbour_range. rewrite <- Hn.
  rewrite (mapO_getitem_range
             (fun nd => np.arange (nd - (i + 2)) (nd + (i + 2) + 1)) n).
  simpl. intros [= <-]. apply NoDup_cell_indices, NoDup_vrange.
  apply Forall_forall. intros r Hr. apply in_map_iff in Hr as (x & <- & _).
  apply NoDup_arange.
Qed.

Lemma filterO_total {A} (f : A -> outcome bool) (p : A -> bool) (l : list A) :
  (forall x, In x l -> f x = Return (p x)) -> filterO f l = Return (filter p l).
Proof.
  induction l as [|x l IH]; intros H; simpl; [reflexivity|].
  rewrite (H x (or_introl eq_refl)). simpl.
  rewrite IH by (intros y Hy; apply H; now right). simpl.
  now destruct (p x).
Qed.

Lemma filterO_raises {A} (f : A -> outcome bool) (l : list A) (x : A) (e : exn) :
  In x l -> f x = Raise e -> exists e', filterO f l = Raise e'.
Proof.
  induction l as [|y l IH]; intros Hin He; [destruct Hin|]. simpl.
  destruct (f y) as [b|e0] eqn:Ey; simpl; [|eauto].
  destruct Hin as [->|Hin]; [congruence|].
  destruct (IH Hin He) as (e' & ->). simpl. eauto.
Qed.

Lemma mapM_ret {A B} (g : A -> B) (l : list A) (t : State) :
  mapM (fun x => ret (g x)) l t = (Return (map g l), t).
Proof.
  induction l as [|x l IH]; simpl; [reflexivity|].
  unfold bind at 1, ret at 1. unfold bind at 1. now rewrite IH.
Qed.

(** [calculate_neighbours(..., array=False)]: the indices the loop accepts,
    as tuples; the instance and the store are not written. *)
Lemma calculate_neighbours_tuples (n : option (list Z)) (alpha i : Z) (t : State) :
  calculate_neighbours n alpha i false t
  = match neighbour_matches (self t) n alpha i with
    | Return found => (Return (map (fun c => Tuple (fst c) (snd c)) found), t)
    | Raise e => (Raise e, t)
    end.
Proof.
  unfold calculate_neighbours, bind at 1 2, get_self, lift.
  destruct (neighbour_matches (self t) n alpha i) as [found|e]; [|reflexivity].
  apply (mapM_ret (fun c : list Z * Z => Tuple (fst c) (snd c))).
Qed.

(** C3 (as amended).  For an origin [(n, alpha)] whose translation vector
    has one coordinate per dimension and a stored shell [i] of distance
    [dist], [calculate_neighbours] runs its test over the candidates of
    [_neighbour_range]: no index twice, and exactly the lattice indices
    [(m, a)] with [m] within [i + 2] of [n] in every dimension and [a] an
    atom index of the basis.  Every one of them is tested: when the tests
    return, the result is the candidates that pass, in the order of the
    candidates; when the test of a candidate raises, so does the call. *)
Theorem calculate_neighbours_candidates
  (L : BravaisLattice) (n : list Z) (alpha i : Z) (dist : float64) (t : State) :
  self t = L ->
  length n = dim L ->
  py.getitem (distances L) i = Return dist ->
  exists cands,
    _neighbour_range L (Some n) i = Return cands
    /\ NoDup cands
    /\ (forall m a, In (m, a) cands
                    <-> within (i + 2) m n /\ 0 <= a < Z.of_nat (n_base L))
    /\ (forall passes,
           (forall c, In c cands -> is_neighbour L (n, alpha) dist c = Return (passes c)) ->
           calculate_neighbours (Some n) alpha i false t
           = (Return (map (fun c => Tuple (fst c) (snd c)) (filter passes cands)), t))
    /\ (forall c e,
           In c cands -> is_neighbour L (n, alpha) dist c = Raise e ->
           exists e', calculate_neighbours (Some n) alpha i false t = (Raise e', t)).
Proof.
  intros Ht Hn Hd. destruct (_neighbour_range_spec L n i Hn) as (cands & Hc & Hin).
  exists cands. split; [assumption|].
  split; [eapply _neighbour_range_NoDup; eassumption|].
  split; [assumption|].
  assert (Hm : neighbour_matches L (Some n) alpha i
               = filterO (is_neighbour L (n, alpha) dist) cands).
  { unfold neighbour_matches. now rewrite Hd, Hc. }
  split.
  - intros passes Hp. rewrite calculate_neighbours_tuples, Ht, Hm.
    now rewrite (filterO_total _ passes cands Hp).
  - intros c e Hcin He. rewrite calculate_neighbours_tuples, Ht, Hm.
    destruct (filterO_raises _ cands c e Hcin He) as (e' & ->). eauto.
Qed.

(** ** The order of binary64 *)

(** A non-NaN value as a point of [Z * Z * Z] ordered lexicographically. *)
Definition key (x : spec_float) : Z * Z * Z :=
  match x with
  | S754_nan => (0, 0, 0)
  | S754_zero _ => (0, 0, 0)
  | S754_infinity s => (if s then -2 else 2, 0, 0)
  | S754_finite s m e => if s then (-1, - e, Zneg m) else (1, e, Zpos m)
  end.

Definition lt3 (a b : Z * Z * Z) : Prop :=
  let '(a1, a2, a3) := a in
  let '(b1, b2, b3) := b in
  a1 < b1 \/ (a1 = b1 /\ (a2 < b2 \/ (a2 = b2 /\ a3 < b3))).

Definition lex3 (a b : Z * Z * Z) : comparison :=
  let '(a1, a2, a3) := a in
  let '(b1, b2, b3) := b in
  match a1 ?= b1 with
  | Eq => match a2 ?= b2 with
          | Eq => a3 ?= b3
          | c => c
          end
  | c => c
  end.

Lemma lex3_spec (a b : Z * Z * Z) :
  match lex3 a b with
  | Lt => lt3 a b
  | Eq => a = b
  | Gt => lt3 b a
  end.
Proof.
  destruct a as [[a1 a2] a3], b as [[b1 b2] b3]. unfold lex3, lt3.
  destruct (Z.compare_spec a1 b1); [|lia|lia].
  destruct (Z.compare_spec a2 b2); [|lia|lia].
  destruct (Z.compare_spec a3 b3); [congruence|lia|lia].
Qed.

Lemma lt3_irrefl a : ~ lt3 a a.
Proof. destruct a as [[a1 a2] a3]. unfold lt3. lia. Qed.

Lemma lt3_trans a b c : lt3 a b -> lt3 b c -> lt3 a c.
Proof.
  destruct a as [[a1 a2] a3], b as [[b1 b2] b3], c as [[c1 c2] c3].
  unfold lt3. lia.
Qed.

Lemma lt3_total a b : lt3 a b \/ a = b \/ lt3 b a.
Proof.
  generalize (lex3_spec a b). destruct (lex3 a b); auto.
Qed.

Definition not_nan (x : spec_float) : Prop := x <> S754_nan.

Lemma SFcompare_key (x y : spec_float) :
  not_nan x -> not_nan y -> SFcompare x y = Some (lex3 (key x) (key y)).
Proof.
  unfold not_nan.
  destruct x as [sx|sx| |sx mx ex], y as [sy|sy| |sy my ey];
    try congruence; intros _ _;
    try (destruct sx; reflexivity); try (destruct sy; reflexivity);
    try (destruct sx, sy; reflexivity).
  destruct sx, sy; try reflexivity; simpl.
  rewrite Z.compare_opp, (Z.compare_antisym ex ey).
  destruct (ex ?= ey); reflexivity.
Qed.

Lemma SFcompare_nan (x y : spec_float) :
  SFcompare x y <> None -> not_nan x /\ not_nan y.
Proof.
  unfold not_nan. destruct x, y; simpl; intros H; split; congruence.
Qed.

(** The comparisons of [float64] through the keys. *)
Definition fkey (x : float) : Z * Z * Z := key (Prim2SF x).
Definition real (x : float) : Prop := not_nan (Prim2SF x).

Lemma ltb_key (x y : float) :
  (x <? y)%float = true <-> real x /\ real y /\ lt3 (fkey x) (fkey y).
Proof.
  rewrite ltb_spec. unfold SFltb, real, fkey. split.
  - destruct (SFcompare (Prim2SF x) (Prim2SF y)) as [c|] eqn:E; [|discriminate].
    destruct (SFcompare_nan (Prim2SF x) (Prim2SF y)) as [Hx Hy]; [congruence|].
    rewrite (SFcompare_key _ _ Hx Hy) in E. inversion E as [E'].
    generalize (lex3_spec (key (Prim2SF x)) (key (Prim2SF y))).
    rewrite E'. destruct c; try discriminate. auto.
  - intros (Hx & Hy & Hlt). rewrite (SFcompare_key _ _ Hx Hy).
    generalize (lex3_spec (key (Prim2SF x)) (key (Prim2SF y))).
    destruct (lex3 _ _); [intros E|reflexivity|intros H].
    + rewrite E in Hlt. now apply lt3_irrefl in Hlt.
    + exfalso. exact (lt3_irrefl _ (lt3_trans _ _ _ Hlt H)).
Qed.

Lemma eqb_key (x y : float) :
  (x =? y)%float = true <-> real x /\ real y /\ fkey x = fkey y.
Proof.
  rewrite eqb_spec. unfold SFeqb, real, fkey. split.
  - destruct (SFcompare (Prim2SF x) (Prim2SF y)) as [c|] eqn:E; [|discriminate].
    destruct (SFcompare_nan (Prim2SF x) (Prim2SF y)) as [Hx Hy]; [congruence|].
    rewrite (SFcompare_key _ _ Hx Hy) in E. inversion E as [E'].
    generalize (lex3_spec (key (Prim2SF x)) (key (Prim2SF y))).
    rewrite E'. destruct c; try discriminate. auto.
  - intros (Hx & Hy & Heq). rewrite (SFcompare_key _ _ Hx Hy).
    generalize (lex3_spec (key (Prim2SF x)) (key (Prim2SF y))).
    rewrite Heq.
    destruct (lex3 _ _); [reflexivity| |]; intros H; now apply lt3_irrefl in H.
Qed.

Lemma leb_key (x y : float) :
  (x <=? y)%float = true
  <-> real x /\ real y /\ (lt3 (fkey x) (fkey y) \/ fkey x = fkey y).
Proof.
  rewrite leb_spec. unfold SFleb, real, fkey. split.
  - destruct (SFcompare (Prim2SF x) (Prim2SF y)) as [c|] eqn:E; [|discriminate].
    destruct (SFcompare_nan (Prim2SF x) (Prim2SF y)) as [Hx Hy]; [congruence|].
    rewrite (SFcompare_key _ _ Hx Hy) in E. inversion E as [E'].
    generalize (lex3_spec (key (Prim2SF x)) (key (Prim2SF y))).
    rewrite E'. destruct c; try discriminate; auto.
  - intros (Hx & Hy & H). rewrite (SFcompare_key _ _ Hx Hy).
    generalize (lex3_spec (key (Prim2SF x)) (key (Prim2SF y))).
    destruct (lex3 _ _); try reflexivity. intros H'. exfalso.
    destruct H as [H|H].
    + exact (lt3_irrefl _ (lt3_trans _ _ _ H H')).
    + rewrite H in H'. now apply lt3_irrefl in H'.
Qed.

Lemma real_eqb_refl (x : float) : real x <-> (x =? x)%float = true.
Proof.
  rewrite eqb_key. tauto.
Qed.

(** ** Signs *)

Local Open Scope float_scope.

(** NaN, a zero, or a value above zero. *)
Definition sgn_ok (x : spec_float) : Prop :=
  match x with
  | S754_nan | S754_zero _ => True
  | S754_infinity s | S754_finite s _ _ => s = false
  end.

Lemma binary_round_aux_sgn (m : Z) (e : Z) (l : location) :
  sgn_ok (binary_round_aux prec emax false m e l).
Proof.
  unfold binary_round_aux.
  destruct (shr_fexp prec emax m e l) as [mrs' e'].
  destruct (shr_fexp prec emax _ e' loc_Exact) as [mrs'' e''].
  destruct (shr_m mrs''); simpl; auto.
  destruct (_ <=? _)%Z; reflexivity.
Qed.

Lemma binary_normalize_sgn (z : Z) :
  (0 <= z)%Z -> sgn_ok (binary_normalize prec emax z 0 false).
Proof.
  intros Hz. destruct z as [|p|p]; simpl; [exact I| |lia].
  unfold binary_round.
  destruct (shl_align _ _ _) as [mz ez]. apply binary_round_aux_sgn.
Qed.

Lemma sqrt_sgn (x : float) : sgn_ok (Prim2SF (sqrt x)).
Proof.
  rewrite sqrt_spec. unfold SF64sqrt, SFsqrt.
  destruct (Prim2SF x) as [s|s| |s m e]; simpl; auto.
  - destruct s; simpl; auto.
  - destruct s; simpl; auto.
    destruct (SFsqrt_core_binary prec emax (Z.pos m) e) as [[mz ez] lz].
    apply binary_round_aux_sgn.
Qed.

Lemma mul_sgn (x c : float) (mc : positive) (ec : Z) :
  Prim2SF c = S754_finite false mc ec ->
  sgn_ok (Prim2SF x) -> sgn_ok (Prim2SF (x * c)).
Proof.
  intros Hc. rewrite mul_spec, Hc. unfold SF64mul, SFmul.
  destruct (Prim2SF x) as [s|s| |s m e]; simpl; auto.
  - intros ->. reflexivity.
  - intros ->. simpl. apply binary_round_aux_sgn.
Qed.

Lemma div_sgn (x c : float) (mc : positive) (ec : Z) :
  Prim2SF c = S754_finite false mc ec ->
  sgn_ok (Prim2SF x) -> sgn_ok (Prim2SF (x / c)).
Proof.
  intros Hc. rewrite div_spec, Hc. unfold SF64div, SFdiv.
  destruct (Prim2SF x) as [s|s| |s m e]; simpl; auto.
  - intros ->. reflexivity.
  - intros ->. simpl.
    destruct (SFdiv_core_binary prec emax (Z.pos m) e (Z.pos mc) ec) as [[mz ez] lz].
    apply binary_round_aux_sgn.
Qed.

Lemma of_Z_sgn (z : Z) : (0 <= z)%Z -> sgn_ok (Prim2SF (np.of_Z z)).
Proof.
  intros Hz. destruct z as [|p|p]; [exact I| |lia].
  unfold np.of_Z. rewrite of_uint63_spec.
  apply binary_normalize_sgn. apply Uint63.to_Z_bounded.
Qed.

Lemma rint_sgn (x : float) : sgn_ok (Prim2SF x) -> sgn_ok (Prim2SF (np.rint x)).
Proof.
  unfold np.rint. destruct (Prim2SF x) as [s|s| |s m e] eqn:E;
    try (rewrite E; auto).
  intros Hs. simpl in Hs. subst s.
  destruct (Z.leb_spec 0 e) as [He|He]; [now rewrite E|].
  apply of_Z_sgn.
  assert (Hd : (0 < 2 ^ (- e))%Z) by (apply Z.pow_pos_nonneg; lia).
  assert (Hq : (0 <= Z.pos m / 2 ^ (- e))%Z) by (apply Z.div_pos; lia).
  destruct (2 * (Z.pos m mod 2 ^ (- e)) ?= 2 ^ (- e))%Z; try lia.
  destruct (Z.even _); lia.
Qed.

Lemma hundred_thousand :
  Prim2SF (np.of_Z (10 ^ DIST_DECIMALS)) = S754_finite false 6871947673600000 (-36).
Proof. vm_compute. reflexivity. Qed.

Lemma round_sgn (d : float) :
  sgn_ok (Prim2SF d) -> sgn_ok (Prim2SF (np.round d DIST_DECIMALS)).
Proof.
  intros H. unfold np.round.
  eapply div_sgn; [exact hundred_thousand|].
  apply rint_sgn. eapply mul_sgn; [exact hundred_thousand| exact H].
Qed.

Lemma sgn_ok_leb (x : float) : real x -> sgn_ok (Prim2SF x) -> (0 <=? x) = true.
Proof.
  intros Hr Hs. rewrite leb_spec. unfold real, not_nan in Hr.
  replace (Prim2SF 0) with (S754_zero false) by reflexivity.
  destruct (Prim2SF x) as [s|s| |s m e]; simpl in *; subst; try reflexivity.
  congruence.
Qed.

(** ** Sets, sorting and removal on [float64] *)

Definition Increasing (l : list float) : Prop :=
  StronglySorted (fun x y => (x <? y) = true) l.

Definition Distinct (l : list float) : Prop :=
  ForallOrdPairs (fun x y => (x =? y) = false) l.

Lemma eqb_false_cases (x y : float) :
  real x -> real y -> (x =? y) = false -> (x <? y) = true \/ (y <? x) = true.
Proof.
  intros Hx Hy He.
  destruct (lt3_total (fkey x) (fkey y)) as [H|[H|H]].
  - left. apply ltb_key. auto.
  - assert ((x =? y) = true) by (apply eqb_key; auto). congruence.
  - right. apply ltb_key. auto.
Qed.

Lemma ltb_trans (x y z : float) :
  (x <? y) = true -> (y <? z) = true -> (x <? z) = true.
Proof.
  rewrite !ltb_key. intros (Hx & _ & H1) (_ & Hz & H2).
  eauto using lt3_trans.
Qed.

Lemma ltb_eqb_false (x y : float) : (x <? y) = true -> (x =? y) = false.
Proof.
  rewrite ltb_key. intros (_ & _ & H).
  destruct (x =? y) eqn:E; [|reflexivity].
  apply eqb_key in E as (_ & _ & E). rewrite E in H.
  now apply lt3_irrefl in H.
Qed.

Lemma eqb_sym (x y : float) : (x =? y) = (y =? x).
Proof.
  destruct (x =? y) eqn:E1, (y =? x) eqn:E2; try reflexivity.
  - apply eqb_key in E1 as (? & ? & E). symmetry in E.
    assert ((y =? x) = true) by (apply eqb_key; auto). congruence.
  - apply eqb_key in E2 as (? & ? & E). symmetry in E.
    assert ((x =? y) = true) by (apply eqb_key; auto). congruence.
Qed.

Lemma eqb_trans (x y z : float) :
  (x =? y) = true -> (y =? z) = true -> (x =? z) = true.
Proof.
  rewrite !eqb_key. intros (Hx & _ & H1) (_ & Hz & H2).
  repeat split; congruence.
Qed.

Lemma In_set (l : list float) (x : float) : In x (py.set eqb l) -> In x l.
Proof.
  induction l as [|y l IH]; simpl; [tauto|].
  destruct (existsb (eqb y) l); simpl; intuition.
Qed.

Lemma set_Distinct (l : list float) : Distinct (py.set eqb l).
Proof.
  unfold Distinct. induction l as [|y l IH]; simpl; [constructor|].
  destruct (existsb (eqb y) l) eqn:E; [assumption|].
  constructor; [|assumption].
  apply Forall_forall. intros z Hz. apply In_set in Hz.
  destruct (y =? z) eqn:Eyz; [|reflexivity].
  assert (existsb (eqb y) l = true) by (apply existsb_exists; eauto).
  congruence.
Qed.

(** A set keeps a representative of every element. *)
Lemma set_complete (l : list float) (x : float) :
  In x l -> (x =? 0) = true -> exists y, In y (py.set eqb l) /\ (y =? 0) = true.
Proof.
  revert x. induction l as [|z l IH]; intros x; simpl; [tauto|].
  intros [->|Hx] H0.
  - destruct (existsb (eqb x) l) eqn:E.
    + apply existsb_exists in E as (y & Hy & Exy).
      apply (IH y); [assumption|].
      rewrite eqb_sym in Exy. eapply eqb_trans; eassumption.
    + exists x. simpl. auto.
  - destruct (IH x Hx H0) as (y & Hy & Ey).
    exists y. destruct (existsb (eqb z) l); simpl; auto.
Qed.

Lemma In_insert (x z : float) (l : list float) :
  In z (py.insert ltb x l) <-> z = x \/ In z l.
Proof.
  induction l as [|y l IH]; simpl; [intuition|].
  destruct (y <? x); simpl; rewrite ?IH; intuition.
Qed.

Lemma In_sort (z : float) (l : list float) :
  In z (py.sort ltb l) <-> In z l.
Proof.
  unfold py.sort. induction l as [|y l IH]; simpl; [tauto|].
  rewrite In_insert, IH. intuition.
Qed.

Lemma insert_Increasing (x : float) (l : list float) :
  Increasing l ->
  Forall (fun y => (x <? y) = true \/ (y <? x) = true) l ->
  Increasing (py.insert ltb x l).
Proof.
  unfold Increasing. induction l as [|y l IH]; intros Hs Hc; simpl.
  - repeat constructor.
  - inversion Hs as [|? ? Hs' Hy]; subst. inversion Hc as [|? ? Hxy Hc']; subst.
    destruct (y <? x) eqn:E.
    + constructor; [now apply IH|].
      apply Forall_forall. intros z Hz. apply In_insert in Hz as [->|Hz].
      * assumption.
      * rewrite Forall_forall in Hy. now apply Hy.
    + destruct Hxy as [Hxy|Hxy]; [|congruence].
      constructor; [assumption|]. constructor; [assumption|].
      eapply Forall_impl; [|exact Hy]. intros z Hz. eapply ltb_trans; eassumption.
Qed.

Lemma sort_Increasing (l : list float) :
  Forall real l -> Distinct l -> Increasing (py.sort ltb l).
Proof.
  unfold Distinct. induction l as [|x l IH]; intros Hr Hd.
  - constructor.
  - inversion Hr as [|? ? Hx Hr']; subst. inversion Hd as [|? ? Hxl Hd']; subst.
    change (py.sort ltb (x :: l)) with (py.insert ltb x (py.sort ltb l)).
    apply insert_Increasing; [now apply IH|].
    apply Forall_forall. intros y Hy. rewrite In_sort in Hy.
    rewrite Forall_forall in Hr'. rewrite Forall_forall in Hxl.
    apply eqb_false_cases; [assumption | now apply Hr' | now apply Hxl].
Qed.

Lemma remove_Some (l : list float) :
  (exists y, In y l /\ (y =? 0) = true) ->
  exists r, py.remove eqb 0 l = Some r.
Proof.
  induction l as [|z l IH]; intros (y & Hy & E); simpl; [destruct Hy|].
  destruct (z =? 0) eqn:Ez; [eauto|].
  destruct Hy as [->|Hy]; [congruence|].
  destruct IH as (r & ->); [eauto|]. simpl. eauto.
Qed.

Lemma remove_In (l r : list float) (x : float) :
  py.remove eqb 0 l = Some r -> In x r -> In x l.
Proof.
  revert r. induction l as [|z l IH]; intros r; simpl; [discriminate|].
  destruct (z =? 0).
  - intros [= <-]. auto.
  - destruct (py.remove eqb 0 l) as [r'|]; simpl; [|discriminate].
    intros [= <-] [->|H]; eauto.
Qed.

Lemma remove_Increasing (l r : list float) :
  Increasing l -> py.remove eqb 0 l = Some r ->
  Increasing r /\ Forall (fun y => (y =? 0) = false) r.
Proof.
  unfold Increasing. revert r. induction l as [|z l IH]; intros r Hs; simpl; [discriminate|].
  inversion Hs as [|? ? Hs' Hz]; subst.
  destruct (z =? 0) eqn:Ez.
  - intros [= <-]. split; [assumption|].
    eapply Forall_impl; [|exact Hz]. intros y Hy. cbv beta in Hy.
    destruct (y =? 0) eqn:Ey; [|reflexivity].
    apply ltb_eqb_false in Hy.
    rewrite eqb_sym in Ey. rewrite (eqb_trans _ _ _ Ez Ey) in Hy. discriminate.
  - destruct (py.remove eqb 0 l) as [r'|] eqn:Er; simpl; [|discriminate].
    intros [= <-]. destruct (IH r' Hs' eq_refl) as [Hi Hn].
    split; [|now constructor].
    constructor; [assumption|].
    apply Forall_forall. intros y Hy. rewrite Forall_forall in Hz.
    apply Hz. eapply remove_In; eauto.
Qed.

Lemma In_firstn {A} (k : nat) (l : list A) (x : A) :
  In x (firstn k l) -> In x l.
Proof.
  intros H. rewrite <- (firstn_skipn k l). apply in_or_app. now left.
Qed.

Lemma firstn_Increasing (k : nat) (l : list float) :
  Increasing l -> Increasing (firstn k l).
Proof.
  unfold Increasing. revert l. induction k as [|k IH]; intros l Hs; simpl; [constructor|].
  destruct l as [|x l]; [constructor|].
  inversion Hs; subst. constructor; [now apply IH|].
  apply Forall_forall. intros y Hy. apply In_firstn in Hy.
  rewrite Forall_forall in H2. auto.
Qed.

Lemma positive_of_nonneg (x : float) :
  (0 <=? x) = true -> (x =? 0) = false -> (0 <? x) = true.
Proof.
  rewrite leb_key. intros (H0 & Hx & [H|H]) E.
  - apply ltb_key. auto.
  - assert ((x =? 0) = true) by (apply eqb_key; auto). congruence.
Qed.
Close Scope float_scope.
Local Open Scope method_scope.

(** ** What a call leaves of the instance *)

(** A computation that never assigns an attribute of the instance. *)
Definition keeps_self {A} (c : M A) : Prop :=
  forall s, self (snd (c s)) = self s.

Lemma keeps_ret {A} (a : A) : keeps_self (ret a).
Proof. intros s. reflexivity. Qed.

Lemma keeps_raise {A} (e : exn) : keeps_self (@raise A e).
Proof. intros s. reflexivity. Qed.

Lemma keeps_lift {A} (c : outcome A) : keeps_self (lift c).
Proof. intros s. reflexivity. Qed.

Lemma keeps_get_self : keeps_self get_self.
Proof. intros s. reflexivity. Qed.

Lemma keeps_alloc (l : list Z) : keeps_self (alloc l).
Proof. intros s. reflexivity. Qed.

Lemma keeps_store (a : addr) (l : list Z) : keeps_self (store a l).
Proof. intros s. reflexivity. Qed.

Lemma keeps_bind {A B} (c : M A) (k : A -> M B) :
  keeps_self c -> (forall a, keeps_self (k a)) -> keeps_self (bind c k).
Proof.
  intros Hc Hk s. unfold bind. specialize (Hc s).
  destruct (c s) as [[a|e] s1]; simpl in *; [|assumption].
  rewrite (Hk a s1). assumption.
Qed.

Lemma keeps_mapM {A B} (f : A -> M B) (l : list A) :
  (forall x, keeps_self (f x)) -> keeps_self (mapM f l).
Proof.
  intros Hf. induction l as [|x l IH]; simpl.
  - apply keeps_ret.
  - apply keeps_bind; [apply Hf|]. intros y.
    apply keeps_bind; [exact IH|]. intros ys. apply keeps_ret.
Qed.

Lemma keeps_calculate_neighbours n alpha dist_idx array :
  keeps_self (calculate_neighbours n alpha dist_idx array).
Proof.
  unfold calculate_neighbours.
  apply keeps_bind; [apply keeps_get_self|]. intros L.
  apply keeps_bind; [apply keeps_lift|]. intros indices.
  apply keeps_mapM. intros idx1. destruct array.
  - apply keeps_bind; [apply keeps_alloc|]. intros a. apply keeps_ret.
  - apply keeps_ret.
Qed.

(** The state in which [calculate_distances] builds the neighbour table. *)
Definition with_shells (s : State) (ds : list float64) (k : Z) : State :=
  mkState (set_n_dist k (set_distances ds (self s))) (heap s) (COUNTER s).

Definition build_table (L : BravaisLattice) : M (list (list (list addr))) :=
  mapM (fun alpha =>
          mapM (fun i_dist =>
                  r <- calculate_neighbours None alpha i_dist true ;;
                  ret (refs_of r))
               (py.range (py.len (distances L))))
       (py.range (Z.of_nat (n_base L))).

Lemma keeps_build_table L : keeps_self (build_table L).
Proof.
  unfold build_table. apply keeps_mapM. intros alpha.
  apply keeps_mapM. intros i.
  apply keeps_bind; [apply keeps_calculate_neighbours|]. intros r. apply keeps_ret.
Qed.

(** [calculate_distances], step by step. *)
Lemma calculate_distances_unfold (num_dist : option Z) (s : State) :
  calculate_distances num_dist s =
  let L := self s in
  if py.len (atoms L) =? 0 then (Raise no_atoms, s)
  else
    let k := shell_count L num_dist in
    let n := search_radius k in
    match rounded_distances L n with
    | Raise e => (Raise e, s)
    | Return ds =>
        match py.remove PrimFloat.eqb 0%float
                (py.sort PrimFloat.ltb (py.set PrimFloat.eqb ds)) with
        | None => (Raise (ValueError "list.remove(x): x not in list" []), s)
        | Some nonzero =>
            let s1 := with_shells s (py.slice_to nonzero (n - 1)) k in
            match build_table (self s1) s1 with
            | (Raise e, s2) => (Raise e, s2)
            | (Return nb, s2) =>
                (Return tt, mkState (set_base_neighbors nb (self s2)) (heap s2) (COUNTER s2))
            end
        end
    end.
Proof.
  unfold calculate_distances, bind, get_self, raise, lift, set_self. simpl.
  destruct (py.len (atoms (self s)) =? 0); [reflexivity|].
  destruct (rounded_distances _ _) as [ds|e]; [|reflexivity].
  destruct (py.remove _ _ _) as [nonzero|]; [|reflexivity].
  simpl. reflexivity.
Qed.

(** ** Shell distances are increasing and positive *)

Lemma mapO_Forall {A B} (f : A -> outcome B) (P : B -> Prop) (l : list A) (r : list B) :
  (forall x y, In x l -> f x = Return y -> P y) ->
  mapO f l = Return r -> Forall P r.
Proof.
  revert r. induction l as [|x l IH]; intros r Hf; simpl.
  - intros [= <-]. constructor.
  - intros H. apply obind_Return in H as (y & Hy & H).
    apply obind_Return in H as (ys & Hys & H). inversion H; subst.
    constructor.
    + eapply Hf; [now left | eassumption].
    + apply IH; [|assumption]. intros x' y' Hx'. apply Hf. now right.
Qed.

Lemma distance_sgn (r1 r2 : ndarray) (d : float64) :
  utils.distance r1 r2 = Return d -> sgn_ok (Prim2SF d).
Proof.
  unfold utils.distance. intros H. apply obind_Return in H as (diff & _ & H).
  inversion H. apply sqrt_sgn.
Qed.

Lemma rounded_distances_sgn (L : BravaisLattice) (n : Z) (ds : list float64) :
  rounded_distances L n = Return ds -> Forall (fun d => sgn_ok (Prim2SF d)) ds.
Proof.
  unfold rounded_distances. intros H.
  apply obind_Return in H as (r_vecs & _ & H).
  apply obind_Return in H as (raw & Hraw & H). inversion H; subst.
  apply Forall_map.
  eapply mapO_Forall in Hraw.
  - eapply Forall_impl; [|exact Hraw]. intros d Hd. apply round_sgn. exact Hd.
  - intros [r1 r2] d _ Hd. simpl in Hd. eapply distance_sgn; eassumption.
Qed.

Lemma is_nan_real (x : float) : is_nan x = false <-> real x.
Proof.
  unfold is_nan. rewrite negb_false_iff. symmetry. apply real_eqb_refl.
Qed.

(** What a successful call has stored. *)
Lemma calculate_distances_stored (num_dist : option Z) (s s' : State) :
  calculate_distances num_dist s = (Return tt, s') ->
  let n := search_radius (shell_count (self s) num_dist) in
  exists ds nonzero,
    rounded_distances (self s) n = Return ds
    /\ py.remove PrimFloat.eqb 0%float
         (py.sort PrimFloat.ltb (py.set PrimFloat.eqb ds)) = Some nonzero
    /\ distances (self s') = py.slice_to nonzero (n - 1)
    /\ n_dist (self s') = shell_count (self s) num_dist.
Proof.
  rewrite calculate_distances_unfold. cbv zeta.
  destruct (py.len (atoms (self s)) =? 0); [discriminate|].
  destruct (rounded_distances _ _) as [ds|e]; [|discriminate].
  destruct (py.remove _ _ _) as [nonzero|] eqn:Er; [|discriminate].
  set (s1 := with_shells s _ _).
  generalize (keeps_build_table (self s1) s1).
  destruct (build_table (self s1) s1) as [[nb|e] s2]; [|discriminate].
  simpl. intros Hk [= <-]. simpl. rewrite Hk.
  exists ds, nonzero. repeat split; (reflexivity || assumption).
Qed.

(** C6 (as amended).  After a call of [calculate_distances] that returned,
    on a lattice none of whose rounded pairwise distances is a NaN, the
    stored shell distances are strictly increasing, every one of them is
    strictly positive, and none equals zero. *)
Theorem calculate_distances_shells_increasing
  (num_dist : option Z) (s s' : State) (ds : list float64) :
  calculate_distances num_dist s = (Return tt, s') ->
  rounded_distances (self s) (search_radius (shell_count (self s) num_dist)) = Return ds ->
  Forall (fun d => is_nan d = false) ds ->
  Increasing (distances (self s'))
  /\ Forall (fun d => (0 <? d)%float = true) (distances (self s'))
  /\ Forall (fun d => (d =? 0)%float = false) (distances (self s')).
Proof.
  intros Hcall Hds Hnan.
  destruct (calculate_distances_stored _ _ _ Hcall) as (ds' & nonzero & Hds' & Hrm & Hst & _).
  rewrite Hds in Hds'. inversion Hds'; subst ds'. clear Hds'.
  assert (Hreal : Forall real ds)
    by (eapply Forall_impl; [|exact Hnan]; intros d; apply is_nan_real).
  assert (Hsgn := rounded_distances_sgn _ _ _ Hds).
  assert (Hreal' : Forall real (py.set PrimFloat.eqb ds)).
  { apply Forall_forall. intros d Hd. apply In_set in Hd.
    rewrite Forall_forall in Hreal. auto. }
  assert (Hinc := sort_Increasing _ Hreal' (set_Distinct ds)).
  destruct (remove_Increasing _ _ Hinc Hrm) as [Hinc' Hnz].
  rewrite Hst. unfold py.slice_to.
  set (k := Z.to_nat _). clearbody k.
  split; [now apply firstn_Increasing|].
  assert (Hin : forall d, In d (firstn k nonzero) -> In d nonzero /\ In d ds).
  { intros d Hd. apply In_firstn in Hd. split; [assumption|].
    apply In_set. rewrite <- In_sort. eapply remove_In; eassumption. }
  rewrite Forall_forall in Hnz, Hreal, Hsgn.
  split; apply Forall_forall; intros d Hd; destruct (Hin d Hd) as [H1 H2].
  - apply positive_of_nonneg; [|now apply Hnz].
    apply sgn_ok_leb; auto.
  - now apply Hnz.
Qed.

(** ** Zeros and finite values *)

Section Zeros.

Local Open Scope float_scope.

Definition zero (x : float) : Prop := exists s, Prim2SF x = S754_zero s.
Definition finite (x : float) : Prop := np.is_finite x = true.

(** [x] is [y], up to the sign of a zero. *)
Definition near (x y : float) : Prop := x = y \/ (zero x /\ zero y).

Lemma zero_finite (x : float) : zero x -> finite x.
Proof. intros [s H]. unfold finite, np.is_finite. now rewrite H. Qed.

Lemma zero_eqb (x : float) : zero x -> (x =? 0) = true.
Proof.
  intros [s H]. rewrite eqb_spec, H. reflexivity.
Qed.

Lemma mul_zero_r (x z : float) : finite x -> zero z -> zero (x * z).
Proof.
  unfold finite, np.is_finite, zero. intros Hx [s Hz].
  rewrite mul_spec, Hz. unfold SF64mul, SFmul.
  destruct (Prim2SF x); try discriminate; eauto.
Qed.

Lemma mul_zero_l (z c : float) (mc : positive) (ec : Z) :
  Prim2SF c = S754_finite false mc ec -> zero z -> zero (z * c).
Proof.
  unfold zero. intros Hc [s Hz]. rewrite mul_spec, Hz, Hc. simpl. eauto.
Qed.

Lemma div_zero_l (z c : float) (mc : positive) (ec : Z) :
  Prim2SF c = S754_finite false mc ec -> zero z -> zero (z / c).
Proof.
  unfold zero. intros Hc [s Hz]. rewrite div_spec, Hz, Hc. simpl. eauto.
Qed.

Lemma add_zero_zero (a b : float) : zero a -> zero b -> zero (a + b).
Proof.
  unfold zero. intros [sa Ha] [sb Hb]. rewrite add_spec, Ha, Hb.
  destruct sa, sb; simpl; eauto.
Qed.

Lemma add_zero_r (r z : float) : finite r -> zero z -> near (r + z) r.
Proof.
  unfold finite, np.is_finite. intros Hr [s Hz].
  destruct (Prim2SF r) as [sr|sr| |sr m e] eqn:E; try discriminate.
  - right. split; [|now exists sr].
    apply add_zero_zero; [now exists sr | now exists s].
  - left. apply Prim2SF_inj. rewrite add_spec, Hz, E. reflexivity.
Qed.

Lemma sub_diag (x : float) : finite x -> zero (x - x).
Proof.
  unfold finite, np.is_finite, zero. intros Hx. rewrite sub_spec.
  destruct (Prim2SF x) as [s|s| |s m e]; try discriminate.
  - destruct s; simpl; eauto.
  - unfold SF64sub, SFsub. rewrite Z.sub_diag. simpl. eauto.
Qed.

Lemma sub_zero_zero (a b : float) : zero a -> zero b -> zero (a - b).
Proof.
  unfold zero. intros [sa Ha] [sb Hb]. rewrite sub_spec, Ha, Hb.
  destruct sa, sb; simpl; eauto.
Qed.

Lemma sub_near (x y : float) : finite y -> near x y -> zero (x - y).
Proof.
  intros Hy [->|[Hx Hz]]; [now apply sub_diag | now apply sub_zero_zero].
Qed.

Lemma sqrt_zero (z : float) : zero z -> zero (sqrt z).
Proof.
  unfold zero. intros [s Hz]. rewrite sqrt_spec, Hz. simpl. eauto.
Qed.

Lemma rint_zero (z : float) : zero z -> zero (np.rint z).
Proof.
  intros [s Hz]. unfold np.rint. rewrite Hz. now exists s.
Qed.

Lemma round_zero (z : float) : zero z -> zero (np.round z DIST_DECIMALS).
Proof.
  intros Hz. unfold np.round.
  eapply div_zero_l; [exact hundred_thousand|].
  apply rint_zero. eapply mul_zero_l; [exact hundred_thousand | exact Hz].
Qed.

Lemma zero_0 : zero 0.
Proof. now exists false. Qed.

Lemma fold_add_zero (l : list float) (a : float) :
  zero a -> Forall zero l -> zero (fold_left PrimFloat.add l a).
Proof.
  revert a. induction l as [|x l IH]; intros a Ha Hl; simpl; [assumption|].
  inversion Hl; subst. apply IH; [|assumption]. now apply add_zero_zero.
Qed.

Lemma sum_zero (l : list float) : Forall zero l -> zero (np.sum l).
Proof. apply fold_add_zero, zero_0. Qed.

Lemma dot_zero (row v : list float) :
  Forall finite row -> Forall zero v -> zero (np.dot row v).
Proof.
  intros Hr Hv. unfold np.dot. apply sum_zero.
  revert v Hv. induction Hr as [|x row Hx Hr IH]; intros v Hv; simpl; [constructor|].
  destruct Hv as [|z v Hz Hv]; simpl; constructor.
  - now apply mul_zero_r.
  - now apply IH.
Qed.

End Zeros.

(** ** Well-formed lattices and the calls that cannot fail *)

Record well_formed (L : BravaisLattice) : Prop :=
  { wf_rows : length (vectors L) = dim L;
    wf_cols : Forall (fun row => length row = dim L) (vectors L);
    wf_vectors : Forall (Forall finite) (vectors L);
    wf_n_base : n_base L = length (atom_positions L);
    wf_atoms : length (atoms L) = length (atom_positions L);
    wf_shape : Forall (fun p => length p = dim L) (atom_positions L);
    wf_positions : Forall (Forall finite) (atom_positions L) }.

Lemma broadcast_same_length {A} (f : A -> A -> A) (err : exn) (a b : list A) :
  length a = length b ->
  np.broadcast f err a b = Return (map (fun p => f (fst p) (snd p)) (combine a b)).
Proof.
  intros H. unfold np.broadcast. now rewrite H, Nat.eqb_refl.
Qed.

Lemma matmul_ok (m : matrix) (v : ndarray) :
  Forall (fun row => length row = length v) m ->
  np.matmul m v = Return (map (fun row => np.dot row v) m).
Proof.
  intros H. unfold np.matmul.
  replace (forallb _ m) with true; [reflexivity|].
  symmetry. apply forallb_forall. rewrite Forall_forall in H.
  intros row Hrow. apply Nat.eqb_eq. auto.
Qed.

Lemma mapO_ok {A B} (f : A -> outcome B) (P : B -> Prop) (l : list A) :
  (forall x, In x l -> exists y, f x = Return y /\ P y) ->
  exists r, mapO f l = Return r /\ Forall P r.
Proof.
  induction l as [|x l IH]; intros H; simpl.
  - exists []. split; [reflexivity | constructor].
  - destruct (H x (or_introl eq_refl)) as (y & Hy & Py).
    destruct IH as (r & Hr & Pr); [intros z Hz; apply H; now right|].
    rewrite Hy, Hr. simpl. exists (y :: r). split; [reflexivity | now constructor].
Qed.

Lemma mapO_In {A B} (f : A -> outcome B) (l : list A) (r : list B) (x : A) :
  mapO f l = Return r -> In x l -> exists y, f x = Return y /\ In y r.
Proof.
  revert r. induction l as [|z l IH]; intros r; simpl; [tauto|].
  intros H. apply obind_Return in H as (y & Hy & H).
  apply obind_Return in H as (ys & Hys & H). inversion H; subst.
  intros [->|Hx].
  - exists y. split; [assumption | now left].
  - destruct (IH ys Hys Hx) as (y' & Hy' & Hin). exists y'. split; [assumption | now right].
Qed.

Lemma filterO_ok {A} (f : A -> outcome bool) (l : list A) :
  (forall x, In x l -> exists b, f x = Return b) ->
  exists r, filterO f l = Return r.
Proof.
  induction l as [|x l IH]; intros H; simpl; [eauto|].
  destruct (H x (or_introl eq_refl)) as (b & Hb).
  destruct IH as (r & Hr); [intros z Hz; apply H; now right|].
  rewrite Hb, Hr. simpl. eauto.
Qed.

Lemma getitem_ok {A} (l : list A) (i : Z) :
  0 <= i < py.len l -> exists x, py.getitem l i = Return x /\ In x l.
Proof.
  unfold py.len. intros H.
  destruct (nth_error l (Z.to_nat i)) as [x|] eqn:E.
  - exists x. split; [|eapply nth_error_In; eassumption].
    rewrite <- (Z2Nat.id i) by lia. now apply getitem_nat.
  - apply nth_error_None in E. lia.
Qed.

Section WellFormed.

Variable L : BravaisLattice.
Hypothesis WF : well_formed L.

Lemma get_position_ok (n : list Z) (alpha : Z) :
  length n = dim L -> 0 <= alpha < Z.of_nat (n_base L) ->
  exists p t,
    py.getitem (atom_positions L) alpha = Return p
    /\ In p (atom_positions L)
    /\ np.matmul (vectors L) (map np.of_Z n) = Return t
    /\ length t = dim L
    /\ get_position L (Some n) alpha
       = Return (map (fun q => PrimFloat.add (fst q) (snd q)) (combine p t)).
Proof.
  intros Hn Ha. destruct WF.
  destruct (getitem_ok (atom_positions L) alpha) as (p & Hp & Hin);
    [unfold py.len; lia|].
  assert (Hlp : length p = dim L) by (rewrite Forall_forall in wf_shape0; auto).
  exists p, (map (fun row => np.dot row (map np.of_Z n)) (vectors L)).
  assert (Hm : np.matmul (vectors L) (map np.of_Z n)
               = Return (map (fun row => np.dot row (map np.of_Z n)) (vectors L))).
  { apply matmul_ok. eapply Forall_impl; [|exact wf_cols0].
    intros row Hrow. cbv beta in Hrow. rewrite length_map. congruence. }
  repeat split; try assumption.
  - now rewrite length_map.
  - unfold get_position. rewrite Hp. simpl. rewrite Hm. simpl.
    apply broadcast_same_length. rewrite length_map. congruence.
Qed.

Lemma get_position_length (n : list Z) (alpha : Z) :
  length n = dim L -> 0 <= alpha < Z.of_nat (n_base L) ->
  exists r, get_position L (Some n) alpha = Return r /\ length r = dim L.
Proof.
  intros Hn Ha. destruct (get_position_ok n alpha Hn Ha) as (p & t & _ & Hin & _ & Ht & Hg).
  eexists. split; [exact Hg|].
  rewrite length_map, length_combine, Ht.
  destruct WF. rewrite Forall_forall in wf_shape0. rewrite (wf_shape0 p Hin). lia.
Qed.

(** The image of a basis atom at the zero translation is the atom's own
    position. *)
Lemma get_position_origin (alpha : Z) :
  0 <= alpha < Z.of_nat (n_base L) ->
  exists p r,
    py.getitem (atom_positions L) alpha = Return p
    /\ In p (atom_positions L)
    /\ get_position L (Some (repeat 0 (dim L))) alpha = Return r
    /\ Forall2 near r p.
Proof.
  intros Ha.
  destruct (get_position_ok (repeat 0 (dim L)) alpha) as (p & t & Hp & Hin & Hm & Ht & Hg);
    [apply repeat_length | assumption |].
  exists p. eexists. repeat split; try eassumption.
  assert (Hz : Forall zero t).
  { rewrite matmul_ok in Hm.
    - inversion Hm; subst. apply Forall_map.
      destruct WF. eapply Forall_impl; [|exact wf_vectors0].
      intros row Hrow. apply dot_zero; [assumption|].
      apply Forall_map. apply Forall_forall. intros z Hz.
      apply repeat_spec in Hz. subst. exact zero_0.
    - destruct WF. eapply Forall_impl; [|exact wf_cols0].
      intros row Hrow. cbv beta in Hrow. rewrite length_map, repeat_length. assumption. }
  assert (Hf : Forall finite p).
  { destruct WF. rewrite Forall_forall in wf_positions0. auto. }
  assert (Hl : length p = length t).
  { destruct WF. rewrite Forall_forall in wf_shape0. rewrite (wf_shape0 p Hin). auto. }
  clear Hp Hin Hm Ht Hg. revert t Hz Hl.
  induction Hf as [|x p Hx Hf IH]; intros t Hz Hl; destruct t as [|z t];
    try discriminate; simpl; constructor.
  - inversion Hz; subst. now apply add_zero_r.
  - inversion Hz; subst. apply IH; [assumption | now inversion Hl].
Qed.

End WellFormed.

Lemma distance_ok (r1 r2 : ndarray) :
  length r1 = length r2 -> exists d, utils.distance r1 r2 = Return d.
Proof.
  intros H. unfold utils.distance, np.subtract.
  rewrite (broadcast_same_length _ _ _ _ H). simpl. eauto.
Qed.

(** The distance of a position to itself rounds to zero. *)
Lemma distance_near (r1 r2 : ndarray) :
  Forall2 near r1 r2 -> Forall finite r2 ->
  exists d, utils.distance r1 r2 = Return d /\ zero d.
Proof.
  intros Hn Hf. unfold utils.distance, np.subtract.
  rewrite broadcast_same_length by (eapply Forall2_length; eassumption).
  simpl. eexists. split; [reflexivity|].
  apply sqrt_zero, sum_zero. rewrite map_map. cbv beta.
  induction Hn as [|x y r1 r2 Hxy Hn IH]; simpl; constructor.
  - inversion Hf; subst.
    assert (Hz : zero (PrimFloat.sub x y)) by now apply sub_near.
    apply mul_zero_r; [now apply zero_finite | assumption].
  - inversion Hf; subst. now apply IH.
Qed.

Lemma In_product {A B} (xs : list A) (ys : list B) (x : A) (y : B) :
  In (x, y) (py.product xs ys) <-> In x xs /\ In y ys.
Proof.
  unfold py.product. rewrite in_flat_map. split.
  - intros (x' & Hx & H). apply in_map_iff in H as (y' & E & Hy).
    inversion E; subst. auto.
  - intros [Hx Hy]. exists x. split; [assumption|].
    apply in_map_iff. eauto.
Qed.

Lemma mapM_ok {A B} (f : A -> M B) (I : State -> Prop) (l : list A) :
  (forall x s, In x l -> I s -> exists y s', f x s = (Return y, s') /\ I s') ->
  forall s, I s -> exists ys s', mapM f l s = (Return ys, s') /\ I s'.
Proof.
  induction l as [|x l IH]; intros Hf s Hs; simpl.
  - exists [], s. split; [reflexivity | assumption].
  - destruct (Hf x s (or_introl eq_refl) Hs) as (y & s1 & Hy & Hs1).
    destruct (IH (fun z t Hz => Hf z t (or_intror Hz)) s1 Hs1) as (ys & s2 & Hys & Hs2).
    exists (y :: ys), s2. unfold bind. rewrite Hy, Hys. split; [reflexivity | assumption].
Qed.

Lemma well_formed_with_shells (L : BravaisLattice) (ds : list float64) (k : Z) :
  well_formed L -> well_formed (set_n_dist k (set_distances ds L)).
Proof. intros []. constructor; assumption. Qed.

Section Shells.

Variable L : BravaisLattice.
Hypothesis WF : well_formed L.

Lemma candidate_positions_ok (n : Z) :
  exists r_vecs,
    candidate_positions L n = Return r_vecs
    /\ Forall (fun r => length r = dim L) r_vecs.
Proof.
  unfold candidate_positions. apply mapO_ok.
  intros [nvec a] H. apply In_cell_indices in H as [Hv Ha].
  apply In_n_vecs in Hv as [Hl _]. simpl.
  now apply get_position_length.
Qed.

Lemma rounded_distances_ok (n : Z) :
  exists ds, rounded_distances L n = Return ds.
Proof.
  unfold rounded_distances.
  destruct (candidate_positions_ok n) as (r_vecs & -> & Hr). simpl.
  destruct (mapO_ok (fun p : ndarray * ndarray => utils.distance (fst p) (snd p))
                    (fun _ => True) (py.product r_vecs (atom_positions L)))
    as (raw & -> & _).
  - intros [r1 r2] H. apply In_product in H as [H1 H2]. simpl.
    destruct (distance_ok r1 r2) as (d & Hd); [|eauto].
    destruct WF. rewrite Forall_forall in Hr, wf_shape0.
    rewrite (Hr r1 H1), (wf_shape0 r2 H2). reflexivity.
  - simpl. eauto.
Qed.

(** The zero distance is always among the rounded distances: the first
    atom is paired with its own image at the zero translation. *)
Lemma rounded_distances_zero (n : Z) (ds : list float64) :
  n_base L <> O -> 3 <= n ->
  rounded_distances L n = Return ds ->
  exists d, In d ds /\ (d =? 0)%float = true.
Proof.
  intros Hb Hn H. unfold rounded_distances in H.
  apply obind_Return in H as (r_vecs & Hr & H).
  apply obind_Return in H as (raw & Hraw & H). inversion H; subst. clear H.
  assert (Ha : 0 <= 0 < Z.of_nat (n_base L)) by lia.
  destruct (get_position_origin L WF 0 Ha) as (p & r & _ & Hin & Hg & Hnear).
  unfold candidate_positions in Hr.
  eapply (mapO_In _ _ _ (repeat 0 (dim L), 0)) in Hr as (r' & Hr' & Hin').
  - simpl in Hr'. rewrite Hg in Hr'. inversion Hr'; subst r'.
    eapply (mapO_In _ _ _ (r, p)) in Hraw as (d & Hd & Hind);
      [|apply In_product; auto].
    simpl in Hd.
    destruct (distance_near r p Hnear) as (d' & Hd' & Hz).
    { destruct WF. rewrite Forall_forall in wf_positions0. auto. }
    rewrite Hd in Hd'. inversion Hd'; subst d'.
    exists (np.round d DIST_DECIMALS). split.
    + apply in_map_iff. eauto.
    + apply zero_eqb, round_zero, Hz.
  - apply In_cell_indices. split; [|assumption].
    apply In_n_vecs. split; [apply repeat_length|].
    apply Forall_forall. intros z Hz. apply repeat_spec in Hz. lia.
Qed.

Lemma neighbour_matches_ok (alpha i : Z) :
  0 <= alpha < Z.of_nat (n_base L) -> 0 <= i < py.len (distances L) ->
  exists found, neighbour_matches L None alpha i = Return found.
Proof.
  intros Ha Hi. unfold neighbour_matches.
  destruct (getitem_ok (distances L) i Hi) as (dist & -> & _). simpl.
  destruct (_neighbour_range_spec L (repeat 0 (dim L)) i (repeat_length _ _))
    as (cands & -> & Hc). simpl.
  apply filterO_ok. intros [m a] Hm. apply Hc in Hm as [Hw Hra].
  unfold is_neighbour, distance. simpl.
  destruct (get_position_length L WF (repeat 0 (dim L)) alpha (repeat_length _ _) Ha)
    as (r1 & -> & Hl1).
  destruct (get_position_length L WF m a) as (r2 & -> & Hl2); [|assumption|].
  { apply Forall2_length in Hw. now rewrite repeat_length in Hw. }
  simpl. destruct (distance_ok r1 r2) as (d & ->); [congruence|].
  simpl. eauto.
Qed.

End Shells.

Lemma calculate_neighbours_ok (s : State) (alpha i : Z) :
  well_formed (self s) ->
  0 <= alpha < Z.of_nat (n_base (self s)) -> 0 <= i < py.len (distances (self s)) ->
  exists r s', calculate_neighbours None alpha i true s = (Return r, s')
               /\ self s' = self s.
Proof.
  intros WF Ha Hi.
  assert (Hk := keeps_calculate_neighbours None alpha i true s).
  destruct (neighbour_matches_ok (self s) WF alpha i Ha Hi) as (found & Hf).
  destruct (mapM_ok (fun idx1 : list Z * Z =>
                       bind (alloc (fst idx1 ++ [snd idx1])) (fun a => ret (Ref a)))
                    (fun _ => True) found) with (s := s) as (r & s' & Hr & _).
  - intros x t _ _. unfold bind, alloc, ret. eauto.
  - exact I.
  - assert (E : calculate_neighbours None alpha i true s = (Return r, s')).
    { unfold calculate_neighbours, bind, get_self, lift. rewrite Hf. exact Hr. }
    exists r, s'. split; [exact E|]. rewrite E in Hk. exact Hk.
Qed.

Lemma build_table_ok (s : State) :
  well_formed (self s) ->
  exists nb s', build_table (self s) s = (Return nb, s') /\ self s' = self s.
Proof.
  intros WF. unfold build_table.
  apply (mapM_ok _ (fun t => self t = self s)); [|reflexivity].
  intros alpha t Ha Ht. apply In_range in Ha.
  apply (mapM_ok _ (fun t => self t = self s)); [|assumption].
  intros i u Hi Hu. apply In_range in Hi.
  destruct (calculate_neighbours_ok u alpha i) as (r & u' & Hr & Hu');
    try (rewrite Hu; assumption).
  exists (refs_of r), u'. unfold bind, ret. rewrite Hr. split; [reflexivity | congruence].
Qed.

(** C9 (as amended).  On a well-formed lattice (finite basis vectors and
    atom positions of the lattice's dimension, one position per atom) with a
    non-empty basis, the rounded pairwise distances computed by
    [calculate_distances]
    contain a zero, so [distances.remove(0.0)] finds its element, and the call
    returns: it raises nothing after its check for an empty basis. *)
Theorem calculate_distances_zero_present (num_dist : option Z) (s : State) :
  well_formed (self s) -> atoms (self s) <> [] ->
  (exists ds d,
      rounded_distances (self s) (search_radius (shell_count (self s) num_dist)) = Return ds
      /\ In d ds /\ (d =? 0)%float = true)
  /\ (exists nonzero ds,
         rounded_distances (self s) (search_radius (shell_count (self s) num_dist)) = Return ds
         /\ py.remove PrimFloat.eqb 0%float
              (py.sort PrimFloat.ltb (py.set PrimFloat.eqb ds)) = Some nonzero)
  /\ exists s', calculate_distances num_dist s = (Return tt, s').
Proof.
  intros WF Hat.
  set (n := search_radius (shell_count (self s) num_dist)).
  assert (Hb : n_base (self s) <> O).
  { destruct WF. rewrite wf_n_base0, <- wf_atoms0.
    destruct (atoms (self s)); [congruence | discriminate]. }
  destruct (rounded_distances_ok (self s) WF n) as (ds & Hds).
  destruct (rounded_distances_zero (self s) WF n ds Hb (search_radius_ge _) Hds)
    as (d & Hd & Hd0).
  destruct (remove_Some (py.sort PrimFloat.ltb (py.set PrimFloat.eqb ds)))
    as (nonzero & Hrm).
  { destruct (set_complete ds d Hd Hd0) as (y & Hy & Hy0).
    exists y. split; [now apply In_sort | assumption]. }
  split; [eauto|]. split; [eauto|].
  rewrite calculate_distances_unfold. cbv zeta. fold n.
  replace (py.len (atoms (self s)) =? 0) with false.
  2:{ symmetry. apply Z.eqb_neq. unfold py.len.
      destruct (atoms (self s)); [congruence | simpl; lia]. }
  rewrite Hds, Hrm.
  set (s1 := with_shells s _ _).
  destruct (build_table_ok s1) as (nb & s2 & -> & _).
  { apply well_formed_with_shells, WF. }
  eauto.
Qed.

(** ** [add_atom] at an occupied position *)

Lemma all_eq_Forall2 (a b : ndarray) :
  Forall2 (fun x y => (x =? y)%float = true) a b -> np.all_eq a b = true.
Proof.
  induction 1 as [|x y a b Hxy _ IH]; simpl; [reflexivity|].
  now rewrite Hxy, IH.
Qed.

(** C7.  [add_atom] at a position that equals, coordinate by coordinate, a
    position of the basis raises [ValueError("Position ... already
    occupied!")] and leaves the state it was called in: the atoms, their
    positions and the atom count are the ones before the call. *)
Theorem add_atom_occupied_position
  (s : State) (pos : option ndarray) (x : ndarray)
  (atom : Atom + option string) (neighbours : Z) :
  In x (atom_positions (self s)) ->
  Forall2 (fun a b => (a =? b)%float = true) (position_of (self s) pos) x ->
  add_atom pos atom neighbours s
  = (Raise (ValueError "Position {pos} already occupied!" (position_of (self s) pos)), s).
Proof.
  intros Hin Heq. unfold add_atom, bind, get_self, raise.
  replace (existsb _ _) with true; [reflexivity|].
  symmetry. apply existsb_exists. exists x. split; [assumption|].
  now apply all_eq_Forall2.
Qed.

Lemma add_atom_occupied_position_witness :
  add_atom (Some [0%float]) (inr None) 0 (state_of chain_1)
  = (Raise (ValueError "Position {pos} already occupied!" [0%float]), state_of chain_1).
Proof.
  apply (add_atom_occupied_position (state_of chain_1) (Some [0%float]) [0%float]).
  - simpl. now left.
  - repeat constructor.
Defined.

(** ** The number of shells kept *)

(** C1 (evaluation at the failing input).  On [chain(a=1.0)] with one atom
    at the origin, [calculate_distances(num_dist=1)] returns and stores two
    shell distances, [[1.0, 2.0]], while [n_dist] is set to [1]: the bound of
    the slice [distances[0:n - 1]] is taken after [n] was raised to
    [MIN_DISTS]. *)
Theorem calculate_distances_one_shell_keeps_two :
  let run := calculate_distances (Some 1) (state_of chain_1) in
  fst run = Return tt
  /\ distances (self (snd run)) = [1; 2]%float
  /\ n_dist (self (snd run)) = 1.
Proof. vm_compute. repeat split; reflexivity. Qed.

(** A call [calculate_distances(num_dist)] that returns keeps the first
    [max(num_dist, 2)] of the sorted non-zero rounded distances (all of them
    when there are fewer): the bound [n - 1] of the slice is taken after [n]
    was raised to [MIN_DISTS = 3]. *)
Lemma calculate_distances_shell_count (num_dist : option Z) (s s' : State) :
  calculate_distances num_dist s = (Return tt, s') ->
  exists ds nonzero,
    rounded_distances (self s) (search_radius (shell_count (self s) num_dist)) = Return ds
    /\ py.remove PrimFloat.eqb 0%float
         (py.sort PrimFloat.ltb (py.set PrimFloat.eqb ds)) = Some nonzero
    /\ distances (self s')
       = firstn (Z.to_nat (Z.max (shell_count (self s) num_dist) 2)) nonzero.
Proof.
  intros H. destruct (calculate_distances_stored _ _ _ H) as (ds & nonzero & Hds & Hrm & Hst & _).
  exists ds, nonzero. split; [assumption|]. split; [assumption|].
  rewrite Hst. unfold py.slice_to, search_radius, MIN_DISTS.
  destruct (Z.ltb_spec (Z.max (shell_count (self s) num_dist + 1) 3 - 1) 0); [lia|].
  f_equal. lia.
Qed.

(** ** [itranslate] after [translate] *)


(** ** Integers as [float64] *)

Lemma iter_xO_value (p j : positive) :
  Zpos (Pos.iter xO p j) = Zpos p * 2 ^ Zpos j.
Proof.
  induction j as [|j IH] using Pos.peano_ind.
  - simpl. lia.
  - rewrite Pos.iter_succ, Pos2Z.inj_succ, Z.pow_succ_r by lia.
    rewrite Pos2Z.inj_xO, IH. lia.
Qed.

Lemma iter_xO_digits (p j : positive) :
  digits2_pos (Pos.iter xO p j) = (digits2_pos p + j)%positive.
Proof.
  induction j as [|j IH] using Pos.peano_ind.
  - simpl. lia.
  - rewrite Pos.iter_succ. simpl. rewrite IH. lia.
Qed.

Lemma digits2_pos_lower (p : positive) :
  2 ^ (Zpos (digits2_pos p) - 1) <= Zpos p.
Proof.
  induction p as [p IH|p IH|]; simpl digits2_pos.
  - rewrite Pos2Z.inj_succ.
    replace (Z.succ (Zpos (digits2_pos p)) - 1) with (Z.succ (Zpos (digits2_pos p) - 1)) by lia.
    rewrite Z.pow_succ_r by lia. lia.
  - rewrite Pos2Z.inj_succ.
    replace (Z.succ (Zpos (digits2_pos p)) - 1) with (Z.succ (Zpos (digits2_pos p) - 1)) by lia.
    rewrite Z.pow_succ_r by lia. lia.
  - simpl. lia.
Qed.

Lemma digits2_pos_53 (p : positive) :
  Zpos p < 2 ^ 53 -> Zpos (digits2_pos p) <= 53.
Proof.
  intros H. assert (Hl := digits2_pos_lower p).
  destruct (Z.le_gt_cases (Zpos (digits2_pos p)) 53) as [|Hgt]; [assumption|].
  assert (2 ^ 53 <= 2 ^ (Zpos (digits2_pos p) - 1)) by (apply Z.pow_le_mono_r; lia).
  lia.
Qed.

(** The binary64 value of a positive integer below [2^53]: the integer,
    shifted to a 53-bit mantissa. *)
Lemma binary_round_small (p : positive) :
  Zpos p < 2 ^ 53 ->
  exists m e,
    binary_round prec emax false p 0 = S754_finite false m e
    /\ - 52 <= e <= 0 /\ Zpos m = Zpos p * 2 ^ (- e).
Proof.
  intros Hp. assert (Hd := digits2_pos_53 p Hp).
  unfold binary_round.
  assert (Hf : fexp prec emax (Zpos (digits2_pos p) + 0) = Zpos (digits2_pos p) - 53).
  { unfold fexp, emin, prec, emax. lia. }
  rewrite Hf. unfold shl_align.
  assert (Haux : forall m e, Zpos (digits2_pos m) = 53 -> -52 <= e <= 0 ->
                 binary_round_aux prec emax false (Zpos m) e loc_Exact
                 = S754_finite false m e).
  { intros m e Hm He. unfold binary_round_aux, shr_fexp.
    simpl Zdigits2. rewrite Hm.
    match goal with
    | |- context [shr _ e ?n] =>
        replace n with 0 by (unfold fexp, emin, prec, emax; lia)
    end.
    cbv beta iota zeta delta
        [shr shr_record_of_loc shr_m loc_of_shr_record round_nearest_even Zdigits2].
    rewrite Hm.
    match goal with
    | |- context [fexp prec emax ?a - e] =>
        replace (fexp prec emax a - e) with 0 by (unfold fexp, emin, prec, emax; lia)
    end.
    cbv beta iota zeta.
    match goal with
    | |- context [if ?b then _ else _] =>
        replace b with true; [reflexivity|]
    end.
    symmetry. apply Z.leb_le. unfold emax, prec. lia. }
  destruct (Zpos (digits2_pos p) - 53 - 0) as [|q|q] eqn:E; try lia.
  - exists p, 0. rewrite Haux by lia. repeat split; try lia. 
  - exists (Pos.iter xO p q), (Zpos (digits2_pos p) - 53).
    rewrite Haux.
    + repeat split; try lia. rewrite iter_xO_value. f_equal. f_equal. lia.
    + rewrite iter_xO_digits. lia.
    + lia.
Qed.

Lemma Prim2SF_of_Z_pos (p : positive) :
  Zpos p < 2 ^ 53 ->
  exists m e,
    Prim2SF (np.of_Z (Zpos p)) = S754_finite false m e
    /\ - 52 <= e <= 0 /\ Zpos m = Zpos p * 2 ^ (- e).
Proof.
  intros Hp. unfold np.of_Z. rewrite of_uint63_spec.
  rewrite Uint63.of_Z_spec.
  rewrite Z.mod_small.
  - simpl. now apply binary_round_small.
  - split; [lia|]. unfold wB. simpl.
    assert (2 ^ 53 < 2 ^ 63) by (apply Z.pow_lt_mono_r; lia).
    change (2 ^ Z.of_nat Uint63.size) with (2 ^ 63). lia.
Qed.

(** An integer below [2^53] is its own floor. *)
Lemma floor_of_Z (k : Z) : Z.abs k < 2 ^ 53 -> np.floor (np.of_Z k) = np.of_Z k.
Proof.
  intros Hk. destruct k as [|p|p].
  - reflexivity.
  - destruct (Prim2SF_of_Z_pos p) as (m & e & Hm & He & Hv); [simpl in Hk; lia|].
    unfold np.floor. rewrite Hm.
    destruct (Z.leb_spec 0 e); [reflexivity|].
    f_equal. simpl cond_Zopp. rewrite Hv. apply Z.div_mul.
    apply Z.pow_nonzero; lia.
  - destruct (Prim2SF_of_Z_pos p) as (m & e & Hm & He & Hv); [simpl in Hk; lia|].
    unfold np.floor.
    assert (Hn : Prim2SF (np.of_Z (Zneg p)) = S754_finite true m e).
    { change (np.of_Z (Zneg p)) with (- np.of_Z (Zpos p))%float.
      rewrite opp_spec, Hm. reflexivity. }
    rewrite Hn.
    destruct (Z.leb_spec 0 e); [reflexivity|].
    f_equal. simpl cond_Zopp. 
    change (Z.neg m) with (- Zpos m). rewrite Hv.
    rewrite <- Z.mul_opp_l. rewrite Z.div_mul by (apply Z.pow_nonzero; lia).
    reflexivity.
Qed.

Lemma sub_diag_eq (x : float) : finite x -> (x - x)%float = 0%float.
Proof.
  unfold finite, np.is_finite. intros Hx. apply Prim2SF_inj. rewrite sub_spec.
  destruct (Prim2SF x) as [s|s| |s m e]; try discriminate.
  - destruct s; reflexivity.
  - unfold SF64sub, SFsub. rewrite Z.sub_diag. reflexivity.
Qed.

Lemma map_floor_of_Z (n : list Z) :
  Forall (fun k => Z.abs k < 2 ^ 53) n ->
  map np.floor (map np.of_Z n) = map np.of_Z n.
Proof.
  induction 1 as [|k n Hk _ IH]; simpl; [reflexivity|].
  now rewrite floor_of_Z, IH.
Qed.

Lemma subtract_diag (v : ndarray) :
  Forall finite v -> np.subtract v v = Return (np.zeros (length v)).
Proof.
  intros H. unfold np.subtract. rewrite broadcast_same_length by reflexivity.
  f_equal. unfold np.zeros.
  induction H as [|x v Hx _ IH]; simpl; [reflexivity|].
  rewrite (sub_diag_eq x Hx). f_equal. exact IH.
Qed.

(** ** Powers of two *)












(** ** The reciprocal of the reciprocal lattice *)

Section ReciprocalTwice.

Variable linalg_inv : matrix -> outcome matrix.

(** [np.linalg.inv] returns on a basis that spans a non-zero volume. *)
Hypothesis inv_returns :
  forall m vol, utils.cell_volume m = Return vol -> (vol =? 0)%float = false ->
                exists i, linalg_inv m = Return i.

(** [latt.reciprocal_lattice().reciprocal_vectors()]. *)
Definition reciprocal_twice (L : BravaisLattice) : outcome matrix :=
  match reciprocal_lattice linalg_inv (state_of L) with
  | (Return R, _) => reciprocal_vectors R
  | (Raise e, _) => Raise e
  end.

Definition bare (m i : matrix) (vol : float64) : BravaisLattice :=
  mkLattice (length m) m i vol (np.zeros (length m)) 0 [] [] 0 [] [].

Lemma init_returns (m : matrix) (vol : float64) :
  utils.cell_volume (np.transpose m) = Return vol -> (vol =? 0)%float = false ->
  exists i, __init__ linalg_inv m = Return (bare (np.transpose m) i vol).
Proof.
  intros Hvol H0. destruct (inv_returns _ _ Hvol H0) as (i & Hi).
  exists i. unfold __init__. now rewrite Hi, Hvol.
Qed.

Lemma reciprocal_twice_steps (m rv : matrix) (vol vol' : float64) :
  utils.cell_volume (np.transpose m) = Return vol -> (vol =? 0)%float = false ->
  (forall i, reciprocal_vectors (bare (np.transpose m) i vol) = Return rv) ->
  utils.cell_volume (np.transpose (np.transpose rv)) = Return vol' ->
  (vol' =? 0)%float = false ->
  (forall i, reciprocal_vectors (bare (np.transpose (np.transpose rv)) i vol')
             = Return (np.transpose m)) ->
  exists L, __init__ linalg_inv m = Return L
            /\ reciprocal_twice L = Return (vectors L).
Proof.
  intros Hvol H0 Hrv Hvol' H0' Hrv'.
  destruct (init_returns m vol Hvol H0) as (i & Hi).
  destruct (init_returns (np.transpose rv) vol' Hvol' H0') as (i' & Hi').
  eexists. split; [exact Hi|].
  unfold reciprocal_twice, reciprocal_lattice. simpl self.
  rewrite (Hrv i). simpl obind. rewrite Hi'. simpl. apply Hrv'.
Qed.

(** C5 (as amended).  For the lattices [chain(1.0)], [square(1.0)],
    [rectangular(2.0, 1.0)] and [hexagonal(1)], whatever inverse
    [np.linalg.inv] returns, [reciprocal_lattice().reciprocal_vectors()]
    returns the basis vectors of the lattice itself, bit for bit. *)
Theorem reciprocal_of_reciprocal (built : outcome BravaisLattice) :
  In built [chain linalg_inv 1; square linalg_inv 1;
            rectangular linalg_inv 2 1; hexagonal linalg_inv 1]%float ->
  exists L, built = Return L /\ reciprocal_twice L = Return (vectors L).
Proof.
  intros [<-|[<-|[<-|[<-|[]]]]];
    unfold chain, square, rectangular, hexagonal;
    eapply reciprocal_twice_steps;
    try (intros i); vm_compute; reflexivity.
Qed.

End ReciprocalTwice.

Lemma reciprocal_of_reciprocal_witness :
  exists L, square inv_diag 1%float = Return L
            /\ reciprocal_twice inv_diag L = Return (vectors L).
Proof.
  apply (reciprocal_of_reciprocal inv_diag).
  - intros m vol _ _. eexists. reflexivity.
  - simpl. auto.
Defined.

(** ** Configuration errors *)

Definition is_configuration_error (e : exn) : bool :=
  match e with
  | ConfigurationError _ _ => true
  | _ => false
  end.

(** The call raised a [ConfigurationError]. *)
Definition raises_configuration_error {A} (r : outcome A) : Prop :=
  exists msg hint, r = Raise (ConfigurationError msg hint).

(** A computation that raises no [ConfigurationError]. *)
Definition quiet {A} (c : outcome A) : Prop :=
  forall e, c = Raise e -> is_configuration_error e = false.

Definition quietM {A} (c : M A) : Prop :=
  forall s, quiet (fst (c s)).

Lemma quiet_Return {A} (a : A) : quiet (Return a).
Proof. intros e H. discriminate. Qed.

Lemma quiet_Raise {A} (e : exn) :
  is_configuration_error e = false -> quiet (@Raise A e).
Proof. intros H e' [= <-]. exact H. Qed.

Lemma quiet_Raise_any {A B} (e : exn) : quiet (@Raise A e) -> quiet (@Raise B e).
Proof. intros H. apply quiet_Raise. now apply H. Qed.

Lemma quiet_obind {A B} (c : outcome A) (k : A -> outcome B) :
  quiet c -> (forall a, quiet (k a)) -> quiet (obind c k).
Proof.
  intros Hc Hk e. destruct c as [a|e']; simpl.
  - apply Hk.
  - intros [= <-]. now apply Hc.
Qed.

Lemma quiet_mapO {A B} (f : A -> outcome B) (l : list A) :
  (forall x, quiet (f x)) -> quiet (mapO f l).
Proof.
  intros Hf. induction l as [|x l IH]; simpl; [apply quiet_Return|].
  apply quiet_obind; [apply Hf|]. intros y.
  apply quiet_obind; [exact IH|]. intros ys. apply quiet_Return.
Qed.

Lemma quiet_filterO {A} (f : A -> outcome bool) (l : list A) :
  (forall x, quiet (f x)) -> quiet (filterO f l).
Proof.
  intros Hf. induction l as [|x l IH]; simpl; [apply quiet_Return|].
  apply quiet_obind; [apply Hf|]. intros y.
  apply quiet_obind; [exact IH|]. intros ys. apply quiet_Return.
Qed.

Lemma quiet_getitem {A} (l : list A) (i : Z) : quiet (py.getitem l i).
Proof.
  unfold py.getitem. destruct (_ <? 0); [now apply quiet_Raise|].
  destruct (nth_error _ _); [apply quiet_Return | now apply quiet_Raise].
Qed.

Lemma quiet_broadcast {A} (f : A -> A -> A) (a b : list A) :
  quiet (np.broadcast f np.shape_error a b).
Proof.
  unfold np.broadcast. destruct (_ =? _)%nat; [apply quiet_Return|].
  destruct a as [|x [|x' a]], b as [|y [|y' b]];
    try apply quiet_Return; now apply quiet_Raise.
Qed.

Lemma quiet_matmul (m : matrix) (v : ndarray) : quiet (np.matmul m v).
Proof.
  unfold np.matmul. destruct (forallb _ _); [apply quiet_Return | now apply quiet_Raise].
Qed.

Lemma quiet_deref (h : list (list Z)) (a : addr) : quiet (deref h a).
Proof.
  unfold deref. destruct (nth_error h a); [apply quiet_Return | now apply quiet_Raise].
Qed.

Lemma quiet_get_position L n alpha : quiet (get_position L n alpha).
Proof.
  unfold get_position. apply quiet_obind; [apply quiet_getitem|]. intros r.
  destruct n as [n|]; [|apply quiet_Return].
  apply quiet_obind; [apply quiet_matmul|]. intros t. apply quiet_broadcast.
Qed.

Lemma quiet_utils_distance r1 r2 : quiet (utils.distance r1 r2).
Proof.
  unfold utils.distance. apply quiet_obind; [apply quiet_broadcast|].
  intros d. apply quiet_Return.
Qed.

Lemma quiet_distance L idx0 idx1 : quiet (distance L idx0 idx1).
Proof.
  unfold distance. apply quiet_obind; [apply quiet_get_position|]. intros r1.
  apply quiet_obind; [apply quiet_get_position|]. intros r2.
  apply quiet_utils_distance.
Qed.

Lemma quiet_neighbour_range L n r : quiet (_neighbour_range L n r).
Proof.
  unfold _neighbour_range. apply quiet_obind; [|intros; apply quiet_Return].
  apply quiet_mapO. intros d.
  apply quiet_obind; [apply quiet_getitem|]. intros; apply quiet_Return.
Qed.

Lemma quiet_neighbour_matches L n alpha i : quiet (neighbour_matches L n alpha i).
Proof.
  unfold neighbour_matches. apply quiet_obind; [apply quiet_getitem|]. intros dist.
  apply quiet_obind; [apply quiet_neighbour_range|]. intros cands.
  apply quiet_filterO. intros x. unfold is_neighbour.
  apply quiet_obind; [apply quiet_distance|]. intros; apply quiet_Return.
Qed.

Lemma quiet_rounded_distances L n : quiet (rounded_distances L n).
Proof.
  unfold rounded_distances, candidate_positions.
  apply quiet_obind.
  - apply quiet_mapO. intros p. apply quiet_get_position.
  - intros r_vecs. apply quiet_obind; [|intros; apply quiet_Return].
    apply quiet_mapO. intros p. apply quiet_utils_distance.
Qed.

Lemma quietM_ret {A} (a : A) : quietM (ret a).
Proof. intros s. apply quiet_Return. Qed.

Lemma quietM_lift {A} (c : outcome A) : quiet c -> quietM (lift c).
Proof. intros H s. exact H. Qed.

Lemma quietM_bind {A B} (c : M A) (k : A -> M B) :
  quietM c -> (forall a, quietM (k a)) -> quietM (bind c k).
Proof.
  intros Hc Hk s. unfold bind. specialize (Hc s).
  destruct (c s) as [[a|e] s1]; simpl in *; [apply Hk|].
  apply quiet_Raise. now apply Hc.
Qed.

Lemma quietM_mapM {A B} (f : A -> M B) (l : list A) :
  (forall x, quietM (f x)) -> quietM (mapM f l).
Proof.
  intros Hf. induction l as [|x l IH]; simpl; [apply quietM_ret|].
  apply quietM_bind; [apply Hf|]. intros y.
  apply quietM_bind; [exact IH|]. intros ys. apply quietM_ret.
Qed.

Lemma quietM_calculate_neighbours n alpha i array :
  quietM (calculate_neighbours n alpha i array).
Proof.
  unfold calculate_neighbours.
  apply quietM_bind; [intros s; apply quiet_Return|]. intros L.
  apply quietM_bind; [apply quietM_lift, quiet_neighbour_matches|]. intros found.
  apply quietM_mapM. intros idx1. destruct array; [|apply quietM_ret].
  apply quietM_bind; [intros s; apply quiet_Return|]. intros a. apply quietM_ret.
Qed.

Lemma quietM_build_table L : quietM (build_table L).
Proof.
  unfold build_table. apply quietM_mapM. intros alpha.
  apply quietM_mapM. intros i.
  apply quietM_bind; [apply quietM_calculate_neighbours|]. intros; apply quietM_ret.
Qed.

Lemma quietM_transformed_copy n a : quietM (transformed_copy n a).
Proof.
  unfold transformed_copy.
  apply quietM_bind; [intros s; apply quiet_deref|]. intros l.
  apply quietM_bind; [intros s; apply quiet_Return|]. intros a_t.
  apply quietM_bind; [intros s; apply quiet_deref|]. intros l_t.
  apply quietM_bind; [apply quietM_lift, quiet_broadcast|]. intros moved.
  apply quietM_bind; [intros s; apply quiet_Return|]. intros; apply quietM_ret.
Qed.

Lemma not_quiet {A} (r : outcome A) :
  quiet r -> ~ raises_configuration_error r.
Proof.
  intros H (msg & hint & E). specialize (H _ E). discriminate.
Qed.

(** [calculate_distances]: the error of an empty basis, and no other
    configuration error. *)
Lemma calculate_distances_configuration (num_dist : option Z) (s : State) :
  (atoms (self s) = [] -> calculate_distances num_dist s = (Raise no_atoms, s))
  /\ (raises_configuration_error (fst (calculate_distances num_dist s))
      <-> atoms (self s) = []).
Proof.
  assert (Hempty : atoms (self s) = [] ->
                   calculate_distances num_dist s = (Raise no_atoms, s)).
  { intros H. rewrite calculate_distances_unfold. cbv zeta. now rewrite H. }
  split; [exact Hempty|]. split.
  - intros Hr. destruct (atoms (self s)) as [|a l] eqn:Ea; [reflexivity|].
    exfalso. revert Hr. apply not_quiet.
    rewrite calculate_distances_unfold. cbv zeta. rewrite Ea.
    replace (py.len (a :: l) =? 0) with false
      by (symmetry; apply Z.eqb_neq; unfold py.len; simpl; lia).
    generalize (quiet_rounded_distances (self s)
                  (search_radius (shell_count (self s) num_dist))).
    destruct (rounded_distances _ _) as [ds|e]; [intros _|apply quiet_Raise_any].
    destruct (py.remove _ _ _) as [nonzero|]; [|now apply quiet_Raise].
    set (s1 := with_shells s _ _).
    generalize (quietM_build_table (self s1) s1).
    destruct (build_table (self s1) s1) as [[nb|e] s2]; simpl; [|apply quiet_Raise_any].
    intros _. apply quiet_Return.
  - intros H. rewrite (Hempty H). now exists "No atoms found in the lattice!"%string,
      "Use 'add_atom' to add an 'Atom'-object"%string.
Qed.

Lemma get_neighbours_configuration (idx : list Z) (i : Z) (s : State) :
  (_base_neighbors (self s) = [] -> get_neighbours idx i s = (Raise not_configured, s))
  /\ (raises_configuration_error (fst (get_neighbours idx i s))
      <-> _base_neighbors (self s) = []).
Proof.
  assert (Hempty : _base_neighbors (self s) = [] ->
                   get_neighbours idx i s = (Raise not_configured, s)).
  { intros H. unfold get_neighbours, bind, get_self. now rewrite H. }
  split; [exact Hempty|]. split.
  - intros Hr. destruct (_base_neighbors (self s)) as [|t0 tl] eqn:Et; [reflexivity|].
    exfalso. revert Hr. apply not_quiet.
    assert (Hq : quietM (fun s' =>
                   bind (lift (py.getitem idx (-1))) (fun alpha =>
                   bind (lift (py.getitem (t0 :: tl) alpha)) (fun site =>
                   bind (lift (py.getitem site i)) (fun entries =>
                   mapM (transformed_copy (removelast idx)) entries))) s')).
    { intros s'.
      apply (quietM_bind (lift (py.getitem idx (-1)))); [apply quietM_lift, quiet_getitem|].
      intros alpha. apply quietM_bind; [apply quietM_lift, quiet_getitem|].
      intros site. apply quietM_bind; [apply quietM_lift, quiet_getitem|].
      intros entries. apply quietM_mapM. intros a. apply quietM_transformed_copy. }
    specialize (Hq s). unfold get_neighbours, bind at 1, get_self. rewrite Et. exact Hq.
  - intros H. rewrite (Hempty H). unfold not_configured. eexists. eexists. reflexivity.
Qed.

Lemma get_neighbour_vectors_configuration (alpha i : Z) (z : bool) (s : State) :
  (_base_neighbors (self s) = [] ->
   get_neighbour_vectors alpha i z s = (Raise not_configured, s))
  /\ (raises_configuration_error (fst (get_neighbour_vectors alpha i z s))
      <-> _base_neighbors (self s) = []).
Proof.
  assert (Hempty : _base_neighbors (self s) = [] ->
                   get_neighbour_vectors alpha i z s = (Raise not_configured, s)).
  { intros H. unfold get_neighbour_vectors. now rewrite H. }
  split; [exact Hempty|]. split.
  - intros Hr. destruct (_base_neighbors (self s)) as [|t0 tl] eqn:Et; [reflexivity|].
    exfalso. revert Hr. apply not_quiet.
    unfold get_neighbour_vectors. rewrite Et. simpl fst.
    apply quiet_obind; [apply quiet_getitem|]. intros pos0.
    apply quiet_obind; [apply quiet_getitem|]. intros site.
    apply quiet_obind; [apply quiet_getitem|]. intros entries.
    apply quiet_obind; [|intros; apply quiet_Return].
    apply quiet_mapO. intros a.
    apply quiet_obind; [apply quiet_deref|]. intros l.
    apply quiet_obind; [apply quiet_getitem|]. intros a1.
    apply quiet_obind; [apply quiet_get_position|]. intros pos1.
    apply quiet_broadcast.
  - intros H. rewrite (Hempty H). unfold not_configured. eexists. eexists. reflexivity.
Qed.

(** *** The history of an instance *)

(** The calls that change a lattice. *)
Inductive call : Type :=
| call_add_atom (pos : option ndarray) (atom : Atom + option string) (neighbours : Z)
| call_calculate_distances (num_dist : option Z)
| call_get_neighbours (idx : list Z) (dist_idx : Z).

Definition perform (c : call) (s : State) : outcome unit * State :=
  match c with
  | call_add_atom pos atom neighbours =>
      let (r, s') := add_atom pos atom neighbours s in
      (match r with Return _ => Return tt | Raise e => Raise e end, s')
  | call_calculate_distances num_dist => calculate_distances num_dist s
  | call_get_neighbours idx dist_idx =>
      let (r, s') := get_neighbours idx dist_idx s in
      (match r with Return _ => Return tt | Raise e => Raise e end, s')
  end.

(** The call ran [calculate_distances] to its end, and so built the
    neighbour table. *)
Definition builds (c : call) (s : State) : bool :=
  match c, fst (perform c s) with
  | call_calculate_distances _, Return _ => true
  | call_add_atom _ _ neighbours, Return _ => negb (neighbours =? 0)
  | _, _ => false
  end.

(** The state after a sequence of calls (a raised exception ends its call,
    not the sequence), and whether one of them built the table. *)
Fixpoint run (cs : list call) (s : State) (built : bool) : State * bool :=
  match cs with
  | [] => (s, built)
  | c :: cs' => run cs' (snd (perform c s)) (built || builds c s)
  end.

(** A lattice as the constructor leaves it. *)
Record fresh (L : BravaisLattice) : Prop :=
  { fresh_n_base : n_base L = O;
    fresh_atoms : atoms L = [];
    fresh_positions : atom_positions L = [];
    fresh_table : _base_neighbors L = [] }.

Record consistent (L : BravaisLattice) (built : bool) : Prop :=
  { consistent_n_base : n_base L = length (atoms L);
    consistent_positions : length (atom_positions L) = length (atoms L);
    consistent_table : _base_neighbors L = [] <-> built = false }.

Lemma mapM_length {A B} (f : A -> M B) (l : list A) (s s' : State) (ys : list B) :
  mapM f l s = (Return ys, s') -> length ys = length l.
Proof.
  revert s s' ys. induction l as [|x l IH]; intros s s' ys; simpl.
  - intros [= <- _]. reflexivity.
  - unfold bind at 1. destruct (f x s) as [[y|e] s1]; [|discriminate].
    unfold bind at 1. destruct (mapM f l s1) as [[zs|e] s2] eqn:E; [|discriminate].
    intros [= <- _]. simpl. f_equal. eapply IH. exact E.
Qed.

Lemma range_length (n : nat) : length (py.range (Z.of_nat n)) = n.
Proof. unfold py.range. now rewrite length_map, length_seq, Nat2Z.id. Qed.

(** What [calculate_distances] changes: the shells and, when it returns,
    the table, which then has one row per basis atom. *)
Lemma calculate_distances_effect (num_dist : option Z) (s : State) :
  let r := calculate_distances num_dist s in
  atoms (self (snd r)) = atoms (self s)
  /\ atom_positions (self (snd r)) = atom_positions (self s)
  /\ n_base (self (snd r)) = n_base (self s)
  /\ match fst r with
     | Return _ => length (_base_neighbors (self (snd r))) = n_base (self s)
                   /\ atoms (self s) <> []
     | Raise _ => _base_neighbors (self (snd r)) = _base_neighbors (self s)
     end.
Proof.
  rewrite calculate_distances_unfold. cbv zeta.
  destruct (atoms (self s)) as [|a l] eqn:Ea; [simpl; auto|].
  replace (py.len (a :: l) =? 0) with false
    by (symmetry; apply Z.eqb_neq; unfold py.len; simpl; lia).
  destruct (rounded_distances _ _) as [ds|e]; [|simpl; auto].
  destruct (py.remove _ _ _) as [nonzero|]; [|simpl; auto].
  set (s1 := with_shells s _ _).
  assert (Hk := keeps_build_table (self s1) s1).
  destruct (build_table (self s1) s1) as [[nb|e] s2] eqn:Eb; simpl in *.
  - rewrite Hk. simpl. repeat split; try assumption; try discriminate.
    unfold build_table in Eb. apply mapM_length in Eb.
    rewrite Eb. apply range_length.
  - rewrite Hk. simpl. auto.
Qed.

(** The state in which [add_atom] has appended an atom and its position. *)
Definition appended (s : State) (a : Atom) (p : ndarray) (c : nat) : State :=
  mkState
    (set_n_base (length (atom_positions (self s) ++ [p]))
       (set_atom_positions (atom_positions (self s) ++ [p])
          (set_atoms (atoms (self s) ++ [a]) (self s))))
    (heap s) c.

Lemma keeps_get_neighbours (idx : list Z) (dist_idx : Z) :
  keeps_self (get_neighbours idx dist_idx).
Proof.
  unfold get_neighbours. apply keeps_bind; [apply keeps_get_self|]. intros L.
  destruct (_base_neighbors L) as [|row rows]; [apply keeps_raise|].
  apply keeps_bind; [apply keeps_lift|]. intros alpha.
  apply keeps_bind; [apply keeps_lift|]. intros site.
  apply keeps_bind; [apply keeps_lift|]. intros entries.
  apply keeps_mapM. intros a. unfold transformed_copy.
  apply keeps_bind; [intros t; reflexivity|]. intros l0.
  apply keeps_bind; [apply keeps_alloc|]. intros a_t.
  apply keeps_bind; [intros t; reflexivity|]. intros l_t.
  apply keeps_bind; [apply keeps_lift|]. intros moved.
  apply keeps_bind; [apply keeps_store|]. intros u. apply keeps_ret.
Qed.

(** What [add_atom] does: nothing at an occupied position; otherwise it
    appends the atom and its position and, for a non-zero [neighbours], runs
    [calculate_distances] on the result. *)
Lemma add_atom_effect (pos : option ndarray) (atom : Atom + option string)
  (neighbours : Z) (s : State) :
  (exists e, add_atom pos atom neighbours s = (Raise e, s))
  \/ exists a s3,
      atoms (self s3) = atoms (self s) ++ [a]
      /\ atom_positions (self s3) = atom_positions (self s) ++ [position_of (self s) pos]
      /\ n_base (self s3) = length (atom_positions (self s3))
      /\ _base_neighbors (self s3) = _base_neighbors (self s)
      /\ add_atom pos atom neighbours s
         = if neighbours =? 0 then (Return a, s3)
           else (match fst (calculate_distances (Some neighbours) s3) with
                 | Return _ => Return a
                 | Raise e => Raise e
                 end, snd (calculate_distances (Some neighbours) s3)).
Proof.
  set (p := position_of (self s) pos).
  destruct (existsb (np.all_eq p) (atom_positions (self s))) eqn:E.
  { left. eexists. unfold add_atom, bind, get_self. fold p. rewrite E. reflexivity. }
  right.
  destruct atom as [a|nm].
  - exists a, (appended s a p (COUNTER s)).
    split; [reflexivity|]. split; [reflexivity|].
    split; [reflexivity|]. split; [reflexivity|].
    unfold add_atom, bind, get_self, ret, set_self. fold p. rewrite E. simpl.
    destruct (neighbours =? 0); [reflexivity|].
    destruct (calculate_distances _ _) as [[u|e] s4]; reflexivity.
  - exists (mkAtom (Atom_name nm (COUNTER s)) None 10).
    exists (appended s (mkAtom (Atom_name nm (COUNTER s)) None 10) p (S (COUNTER s))).
    split; [reflexivity|]. split; [reflexivity|].
    split; [reflexivity|]. split; [reflexivity|].
    unfold add_atom, bind, get_self, Atom_init, set_self, ret. fold p. rewrite E. simpl.
    destruct (neighbours =? 0); [reflexivity|].
    destruct (calculate_distances _ _) as [[u|e] s4]; reflexivity.
Qed.

Lemma built_consistent (num_dist : option Z) (s : State) (built : bool) :
  consistent (self s) built ->
  let r := calculate_distances num_dist s in
  consistent (self (snd r))
             (built || match fst r with Return _ => true | Raise _ => false end).
Proof.
  intros [Hb Hp Ht]. cbv zeta.
  destruct (calculate_distances_effect num_dist s) as (Hat & Hpos & Hnb & Hres).
  destruct (calculate_distances num_dist s) as [[u|e] s4]; simpl in *.
  - destruct Hres as [Hlen Hne].
    constructor; try congruence.
    rewrite orb_true_r. split; [|discriminate].
    intros E. rewrite E in Hlen. simpl in Hlen.
    destruct (atoms (self s)); [congruence|].
    rewrite Hb in Hlen. discriminate.
  - rewrite orb_false_r. constructor; try congruence.
    all: rewrite Hres; exact Ht.
Qed.

Lemma perform_consistent (c : call) (s : State) (built : bool) :
  consistent (self s) built ->
  consistent (self (snd (perform c s))) (built || builds c s).
Proof.
  intros H. destruct c as [pos atom nb|num|idx i]; unfold builds, perform.
  3:{ assert (Hk := keeps_get_neighbours idx i s).
      destruct (get_neighbours idx i s) as [[r|e] s1]; simpl in *;
        rewrite orb_false_r, Hk; exact H. }
  - destruct (add_atom_effect pos atom nb s) as [(e & ->)|(a & s3 & Ha & Hp & Hb & Ht & ->)].
    { simpl. now rewrite orb_false_r. }
    assert (H3 : consistent (self s3) built).
    { destruct H as [Hb0 Hp0 Ht0]. constructor.
      - rewrite Hb, Hp, Ha, !length_app. simpl. lia.
      - rewrite Hp, Ha, !length_app. simpl. lia.
      - now rewrite Ht. }
    destruct (Z.eqb_spec nb 0) as [->|Hnb].
    + simpl. now rewrite orb_false_r.
    + assert (Hc := built_consistent (Some nb) s3 built H3). cbv zeta in Hc.
      replace (nb =? 0) with false by (symmetry; now apply Z.eqb_neq).
      destruct (calculate_distances (Some nb) s3) as [[u|e] s4]; simpl in *; exact Hc.
  - assert (Hc := built_consistent num s built H). cbv zeta in Hc.
    destruct (calculate_distances num s) as [[u|e] s4]; simpl in *; exact Hc.
Qed.

Lemma run_consistent (cs : list call) (s : State) (built : bool) :
  consistent (self s) built ->
  consistent (self (fst (run cs s built))) (snd (run cs s built)).
Proof.
  revert s built. induction cs as [|c cs IH]; intros s built H; simpl; [exact H|].
  apply IH. now apply perform_consistent.
Qed.

Lemma fresh_consistent (L : BravaisLattice) : fresh L -> consistent L false.
Proof.
  intros [Hb Ha Hp Ht]. constructor.
  - now rewrite Hb, Ha.
  - now rewrite Hp, Ha.
  - tauto.
Qed.

(** C8.  On every state a new instance reaches through [add_atom],
    [calculate_distances] and [get_neighbours]: [calculate_distances] raises
    a [ConfigurationError] exactly when the basis is empty, and
    [get_neighbours] and [get_neighbour_vectors] raise one exactly when no
    call has built the neighbour table; the error carries the hint of the
    source, which names [add_atom], or the [neighbours] keyword and
    [calculate_distances]. *)
Theorem configuration_errors (cs : list call) (s0 : State) :
  fresh (self s0) ->
  let s := fst (run cs s0 false) in
  let built := snd (run cs s0 false) in
  (forall num_dist,
      (raises_configuration_error (fst (calculate_distances num_dist s))
       <-> atoms (self s) = [])
      /\ (atoms (self s) = [] ->
          fst (calculate_distances num_dist s)
          = Raise (ConfigurationError "No atoms found in the lattice!"
                                      "Use 'add_atom' to add an 'Atom'-object")))
  /\ (forall idx dist_idx,
         (raises_configuration_error (fst (get_neighbours idx dist_idx s))
          <-> built = false)
         /\ (built = false ->
             fst (get_neighbours idx dist_idx s) = Raise not_configured))
  /\ (forall alpha dist_idx include_zero,
         (raises_configuration_error
            (fst (get_neighbour_vectors alpha dist_idx include_zero s))
          <-> built = false)
         /\ (built = false ->
             fst (get_neighbour_vectors alpha dist_idx include_zero s)
             = Raise not_configured)).
Proof.
  intros Hf. cbv zeta.
  destruct (run_consistent cs s0 false (fresh_consistent _ Hf)) as [_ _ Ht].
  set (s := fst (run cs s0 false)) in *.
  set (built := snd (run cs s0 false)) in *.
  split; [|split].
  - intros num. destruct (calculate_distances_configuration num s) as [He Hiff].
    split; [exact Hiff|]. intros H. now rewrite (He H).
  - intros idx i. destruct (get_neighbours_configuration idx i s) as [He Hiff].
    split; [now rewrite Hiff|]. intros H. apply Ht in H. now rewrite (He H).
  - intros alpha i z.
    destruct (get_neighbour_vectors_configuration alpha i z s) as [He Hiff].
    split; [now rewrite Hiff|]. intros H. apply Ht in H. now rewrite (He H).
Qed.

(** ** [get_neighbours] and the stored table *)

(** The list an index stands for in a store. *)
Definition contents (h : list (list Z)) (i : pyidx) : outcome (list Z) :=
  match i with
  | Ref a => deref h a
  | Tuple n alpha => Return (n ++ [alpha])
  end.

(** What a call of [get_neighbours] returned, by value. *)
Definition result_value (r : outcome (list pyidx) * State) : outcome (list (list Z)) :=
  match fst r with
  | Return l => mapO (contents (heap (snd r))) l
  | Raise e => Raise e
  end.

(** The neighbour table, by value. *)
Definition table_value (s : State) : list (list (list (outcome (list Z)))) :=
  map (map (map (deref (heap s)))) (_base_neighbors (self s)).

(** Every reference of the table points to a list object of the store. *)
Definition table_allocated (s : State) : Prop :=
  Forall (Forall (Forall (fun a => a < length (heap s))%nat))
         (_base_neighbors (self s)).

(** [idx_t[:-1] + n], written back before the last element. *)
Definition moved_entry (n l : list Z) : outcome (list Z) :=
  moved <-! np.broadcast Z.add np.shape_error (removelast l) n ;;
  Return (moved ++ py.slice_last l).

Lemma update_last {A} (h : list A) (x y : A) :
  update (h ++ [x]) (length h) y = h ++ [y].
Proof. induction h as [|z h IH]; simpl; [reflexivity | now rewrite IH]. Qed.

Lemma nth_error_last {A} (h more : list A) (x : A) :
  nth_error ((h ++ [x]) ++ more) (length h) = Some x.
Proof.
  rewrite <- app_assoc. rewrite nth_error_app2 by lia.
  now rewrite Nat.sub_diag.
Qed.

Lemma nth_error_snoc {A} (h : list A) (x : A) :
  nth_error (h ++ [x]) (length h) = Some x.
Proof. rewrite nth_error_app2 by lia. now rewrite Nat.sub_diag. Qed.

Lemma transformed_copy_run (n : list Z) (a : addr) (t : State) (l : list Z) :
  nth_error (heap t) a = Some l ->
  transformed_copy n a t
  = match moved_entry n l with
    | Return m => (Return (Ref (length (heap t))),
                   mkState (self t) (heap t ++ [m]) (COUNTER t))
    | Raise e => (Raise e, mkState (self t) (heap t ++ [l]) (COUNTER t))
    end.
Proof.
  intros H. unfold transformed_copy, bind, alloc, store, lift, ret, deref, moved_entry.
  rewrite H. simpl.
  rewrite nth_error_snoc.
  destruct (np.broadcast Z.add np.shape_error (removelast l) n) as [moved|e]; simpl.
  - now rewrite update_last.
  - reflexivity.
Qed.

Section Copies.

Variable n : list Z.
Variable h0 : list (list Z).

(** The entries [get_neighbours] returns, computed from the stored ones. *)
Definition moved_entries (entries : list addr) : outcome (list (list Z)) :=
  mapO (fun a => l <-! deref h0 a ;; moved_entry n l) entries.

Lemma copies_run (entries : list addr) :
  Forall (fun a => a < length h0)%nat entries ->
  forall t, (exists ext, heap t = h0 ++ ext) ->
  let r := mapM (transformed_copy n) entries t in
  (exists ext', heap (snd r) = heap t ++ ext')
  /\ self (snd r) = self t
  /\ COUNTER (snd r) = COUNTER t
  /\ match fst r with
     | Return refs =>
         exists vals, moved_entries entries = Return vals
                      /\ forall more, mapO (contents (heap (snd r) ++ more)) refs = Return vals
     | Raise e => moved_entries entries = Raise e
     end.
Proof.
  induction 1 as [|a entries Ha _ IH]; intros t (ext & Hext).
  - simpl. split; [exists []; now rewrite app_nil_r|].
    split; [reflexivity|]. split; [reflexivity|].
    exists []. split; reflexivity.
  - destruct (nth_error h0 a) as [l|] eqn:El; [|apply nth_error_None in El; lia].
    assert (Ht : nth_error (heap t) a = Some l).
    { rewrite Hext. cbv beta in Ha. rewrite nth_error_app1 by lia. exact El. }
    intros r.
    assert (Er : r = match moved_entry n l with
                     | Return m =>
                         let t1 := mkState (self t) (heap t ++ [m]) (COUNTER t) in
                         match mapM (transformed_copy n) entries t1 with
                         | (Return refs, t2) => (Return (Ref (length (heap t)) :: refs), t2)
                         | (Raise e, t2) => (Raise e, t2)
                         end
                     | Raise e => (Raise e, mkState (self t) (heap t ++ [l]) (COUNTER t))
                     end).
    { subst r. simpl mapM. unfold bind at 1. rewrite (transformed_copy_run n a t l Ht).
      destruct (moved_entry n l) as [m|e]; [|reflexivity].
      cbv zeta. unfold bind at 1.
      destruct (mapM _ _ _) as [[refs|e] t2]; reflexivity. }
    clearbody r. subst r.
    assert (Es : moved_entries (a :: entries)
                 = (m <-! moved_entry n l ;; ys <-! moved_entries entries ;;
                    Return (m :: ys))).
    { unfold moved_entries. simpl mapO. unfold deref at 1. now rewrite El. }
    rewrite Es. clear Es.
    destruct (moved_entry n l) as [m|e]; simpl obind.
    + cbv zeta. set (t1 := mkState (self t) (heap t ++ [m]) (COUNTER t)).
      specialize (IH t1). cbv zeta in IH.
      destruct IH as ((ext' & Hh) & Hs & Hc & Hr).
      { exists (ext ++ [m]). subst t1. simpl. rewrite Hext. now rewrite app_assoc. }
      destruct (mapM (transformed_copy n) entries t1) as [[refs|e] t2];
        subst t1; simpl in *.
      * split; [exists ([m] ++ ext'); now rewrite Hh, <- app_assoc|].
        split; [exact Hs|]. split; [exact Hc|].
        destruct Hr as (vals & Hv & Hm). rewrite Hv.
        exists (m :: vals). split; [reflexivity|].
        intros more. unfold deref at 1. rewrite Hh.
        rewrite <- app_assoc. rewrite (nth_error_last (heap t) (ext' ++ more) m).
        simpl. rewrite app_assoc. rewrite <- Hh. rewrite Hm. reflexivity.
      * split; [exists ([m] ++ ext'); now rewrite Hh, <- app_assoc|].
        split; [exact Hs|]. split; [exact Hc|].
        rewrite Hr. reflexivity.
    + simpl. split; [now exists [l]|]. auto.
Qed.

End Copies.

(** [get_neighbours] as a function of the lattice and of the store the
    table lives in. *)
Definition neighbours_value (L : BravaisLattice) (h : list (list Z))
  (idx : list Z) (dist_idx : Z) : outcome (list (list Z)) :=
  match _base_neighbors L with
  | [] => Raise not_configured
  | _ =>
      alpha <-! py.getitem idx (-1) ;;
      site <-! py.getitem (_base_neighbors L) alpha ;;
      entries <-! py.getitem site dist_idx ;;
      moved_entries (removelast idx) h entries
  end.

Lemma get_neighbours_unfold (idx : list Z) (dist_idx : Z) (t : State) :
  get_neighbours idx dist_idx t
  = match _base_neighbors (self t) with
    | [] => (Raise not_configured, t)
    | _ =>
        match py.getitem idx (-1) with
        | Raise e => (Raise e, t)
        | Return alpha =>
            match py.getitem (_base_neighbors (self t)) alpha with
            | Raise e => (Raise e, t)
            | Return site =>
                match py.getitem site dist_idx with
                | Raise e => (Raise e, t)
                | Return entries =>
                    mapM (transformed_copy (removelast idx)) entries t
                end
            end
        end
    end.
Proof.
  unfold get_neighbours, bind at 1, get_self.
  destruct (_base_neighbors (self t)) as [|row rows]; [reflexivity|].
  unfold bind at 1, lift. destruct (py.getitem idx (-1)); [|reflexivity].
  unfold bind at 1. destruct (py.getitem (row :: rows) a); [|reflexivity].
  unfold bind at 1. destruct (py.getitem a0 dist_idx); reflexivity.
Qed.

Lemma get_neighbours_run (s0 t : State) (idx : list Z) (dist_idx : Z) :
  table_allocated s0 -> self t = self s0 -> (exists ext, heap t = heap s0 ++ ext) ->
  let r := get_neighbours idx dist_idx t in
  (exists ext', heap (snd r) = heap t ++ ext')
  /\ self (snd r) = self t
  /\ COUNTER (snd r) = COUNTER t
  /\ result_value r = neighbours_value (self s0) (heap s0) idx dist_idx.
Proof.
  intros Hall Hself Hext r.
  assert (Hstay : forall e,
            (exists ext', heap (snd (@Raise (list pyidx) e, t)) = heap t ++ ext')
            /\ self (snd (@Raise (list pyidx) e, t)) = self s0
            /\ COUNTER (snd (@Raise (list pyidx) e, t)) = COUNTER t
            /\ result_value (Raise e, t) = Raise e).
  { intros e. simpl. split; [exists []; now rewrite app_nil_r|]. auto. }
  subst r. rewrite get_neighbours_unfold. unfold neighbours_value.
  rewrite Hself. unfold table_allocated in Hall.
  destruct (_base_neighbors (self s0)) as [|row rows] eqn:Et; [apply Hstay|].
  destruct (py.getitem idx (-1)) as [alpha|e] eqn:Ea; simpl obind; [|apply Hstay].
  destruct (py.getitem (row :: rows) alpha) as [site|e] eqn:Es; simpl obind;
    [|apply Hstay].
  destruct (py.getitem site dist_idx) as [entries|e] eqn:Ee; simpl obind;
    [|apply Hstay].
  assert (Hentries : Forall (fun a => a < length (heap s0))%nat entries).
  { apply getitem_In in Es. apply getitem_In in Ee.
    rewrite Forall_forall in Hall. specialize (Hall site Es).
    rewrite Forall_forall in Hall. exact (Hall entries Ee). }
  destruct (copies_run (removelast idx) (heap s0) entries Hentries t Hext)
    as (Hh & Hs & Hc & Hr).
  split; [exact Hh|]. split; [now rewrite Hs|]. split; [exact Hc|].
  unfold result_value.
  destruct (fst (mapM (transformed_copy (removelast idx)) entries t)) as [refs|e].
  - destruct Hr as (vals & -> & Hm). specialize (Hm []).
    now rewrite app_nil_r in Hm.
  - now rewrite Hr.
Qed.

Lemma deref_extended (h ext : list (list Z)) (a : addr) :
  (a < length h)%nat -> deref (h ++ ext) a = deref h a.
Proof. intros H. unfold deref. now rewrite nth_error_app1. Qed.

(** C10.  On a state whose table refers to list objects of the store, a
    call of [get_neighbours] assigns no attribute of the instance, changes no
    list object that existed before it (its results are new objects), so
    leaves the table as it was, by value; and a second call with the same
    arguments returns the same indices, or raises the same exception. *)
Theorem get_neighbours_keeps_table (s : State) (idx : list Z) (dist_idx : Z) :
  table_allocated s ->
  let r1 := get_neighbours idx dist_idx s in
  let s1 := snd r1 in
  self s1 = self s
  /\ (forall a l, nth_error (heap s) a = Some l -> nth_error (heap s1) a = Some l)
  /\ table_value s1 = table_value s
  /\ result_value (get_neighbours idx dist_idx s1) = result_value r1.
Proof.
  intros Hall r1 s1.
  destruct (get_neighbours_run s s idx dist_idx Hall eq_refl)
    as ((ext & Hh) & Hs & _ & Hv); [exists []; now rewrite app_nil_r|].
  fold r1 in Hh, Hs, Hv. fold s1 in Hh, Hs.
  split; [exact Hs|]. split; [|split].
  - intros a l H. rewrite Hh. rewrite nth_error_app1; [exact H|].
    apply nth_error_Some. congruence.
  - unfold table_value. rewrite Hs, Hh. unfold table_allocated in Hall.
    apply map_ext_in. intros row Hrow. rewrite Forall_forall in Hall.
    specialize (Hall row Hrow).
    apply map_ext_in. intros cell Hcell. rewrite Forall_forall in Hall.
    specialize (Hall cell Hcell).
    apply map_ext_in. intros a Ha. rewrite Forall_forall in Hall.
    apply deref_extended. exact (Hall a Ha).
  - rewrite Hv.
    destruct (get_neighbours_run s s1 idx dist_idx Hall Hs) as (_ & _ & _ & Hv');
      [now exists ext|].
    exact Hv'.
Qed.

(** *** The table of a reachable state refers to stored objects *)

(** A computation that only adds list objects to the store, and whose
    result refers to objects of the store it leaves. *)
Definition allocates {B} (addrs : B -> list addr) (c : M B) : Prop :=
  forall s,
    (exists ext, heap (snd (c s)) = heap s ++ ext)
    /\ forall b, fst (c s) = Return b ->
                 Forall (fun a => a < length (heap (snd (c s))))%nat (addrs b).

Lemma allocates_mapM {A B} (addrs : B -> list addr) (f : A -> M B) (l : list A) :
  (forall x, allocates addrs (f x)) -> allocates (flat_map addrs) (mapM f l).
Proof.
  intros Hf. induction l as [|x l IH]; intros s.
  - simpl. split; [exists []; now rewrite app_nil_r|].
    intros b [= <-]. constructor.
  - simpl mapM. unfold bind.
    destruct (Hf x s) as ((e1 & H1) & Hb1).
    destruct (f x s) as [[y|e] s1]; simpl in *; [|split; [eauto | intros; congruence]].
    destruct (IH s1) as ((e2 & H2) & Hb2).
    destruct (mapM f l s1) as [[ys|e] s2]; simpl in *.
    + split; [exists (e1 ++ e2); now rewrite H2, H1, app_assoc|].
      intros b [= <-]. simpl. apply Forall_app. split; [|now apply Hb2].
      eapply Forall_impl; [|exact (Hb1 y eq_refl)].
      intros a Ha. cbv beta in Ha. rewrite H2, length_app. lia.
    + split; [exists (e1 ++ e2); now rewrite H2, H1, app_assoc | intros; congruence].
Qed.

Lemma allocates_calculate_neighbours n alpha i :
  allocates refs_of (calculate_neighbours n alpha i true).
Proof.
  intros s.
  assert (E : calculate_neighbours n alpha i true s
              = match neighbour_matches (self s) n alpha i with
                | Return found =>
                    mapM (fun idx1 : list Z * Z =>
                            a <- alloc (fst idx1 ++ [snd idx1]) ;; ret (Ref a)) found s
                | Raise e => (Raise e, s)
                end).
  { unfold calculate_neighbours, bind at 1 2, get_self, lift.
    destruct (neighbour_matches (self s) n alpha i); reflexivity. }
  rewrite E. clear E.
  destruct (neighbour_matches (self s) n alpha i) as [found|e]; simpl.
  2:{ split; [exists []; now rewrite app_nil_r | intros; congruence]. }
  apply (allocates_mapM (fun i => match i with Ref a => [a] | Tuple _ _ => [] end)).
  intros idx1 t. unfold bind, alloc, ret. simpl.
  split; [eauto|]. intros b [= <-]. constructor; [|constructor].
  rewrite length_app. simpl. lia.
Qed.

Lemma allocates_build_table (L : BravaisLattice) :
  allocates (flat_map (flat_map (fun l => l))) (build_table L).
Proof.
  unfold build_table. apply allocates_mapM. intros alpha.
  apply allocates_mapM. intros i s.
  destruct (allocates_calculate_neighbours None alpha i s) as (Hext & Hb).
  unfold bind. destruct (calculate_neighbours None alpha i true s) as [[r|e] s1];
    simpl in *.
  - split; [exact Hext|]. intros b [= <-]. now apply Hb.
  - split; [exact Hext | intros; congruence].
Qed.

Lemma Forall_nested (P : addr -> Prop) (t : list (list (list addr))) :
  Forall P (flat_map (flat_map (fun l => l)) t) -> Forall (Forall (Forall P)) t.
Proof.
  intros H. rewrite Forall_flat_map in H.
  eapply Forall_impl; [|exact H]. intros row Hrow. cbv beta in Hrow.
  rewrite Forall_flat_map in Hrow. exact Hrow.
Qed.

Lemma table_allocated_extended (s t : State) :
  table_allocated s -> _base_neighbors (self t) = _base_neighbors (self s) ->
  (exists ext, heap t = heap s ++ ext) -> table_allocated t.
Proof.
  unfold table_allocated. intros H -> (ext & ->).
  eapply Forall_impl; [|exact H]. intros row. apply Forall_impl. intros cell.
  apply Forall_impl. intros a. rewrite length_app. lia.
Qed.

Lemma calculate_distances_allocated (num_dist : option Z) (s : State) :
  table_allocated s -> table_allocated (snd (calculate_distances num_dist s)).
Proof.
  intros H. rewrite calculate_distances_unfold. cbv zeta.
  destruct (_ =? 0); [exact H|].
  destruct (rounded_distances _ _) as [ds|e]; [|exact H].
  destruct (py.remove _ _ _) as [nonzero|]; [|exact H].
  set (s1 := with_shells s _ _).
  assert (Hk := keeps_build_table (self s1) s1).
  destruct (allocates_build_table (self s1) s1) as (Hext & Hb).
  destruct (build_table (self s1) s1) as [[nb|e] s2]; simpl in *.
  - unfold table_allocated. simpl. apply Forall_nested. now apply Hb.
  - apply (table_allocated_extended s); [exact H| |exact Hext].
    now rewrite Hk.
Qed.

(** [add_atom] before its call of [calculate_distances]: the store is the
    one it was called in. *)
Lemma add_atom_store (pos : option ndarray) (atom : Atom + option string)
  (neighbours : Z) (s : State) :
  (exists e, add_atom pos atom neighbours s = (Raise e, s))
  \/ exists a s3,
      heap s3 = heap s
      /\ _base_neighbors (self s3) = _base_neighbors (self s)
      /\ add_atom pos atom neighbours s
         = if neighbours =? 0 then (Return a, s3)
           else (match fst (calculate_distances (Some neighbours) s3) with
                 | Return _ => Return a
                 | Raise e => Raise e
                 end, snd (calculate_distances (Some neighbours) s3)).
Proof.
  set (p := position_of (self s) pos).
  destruct (existsb (np.all_eq p) (atom_positions (self s))) eqn:E.
  { left. eexists. unfold add_atom, bind, get_self. fold p. rewrite E. reflexivity. }
  right.
  destruct atom as [a|nm].
  - exists a, (appended s a p (COUNTER s)).
    split; [reflexivity|]. split; [reflexivity|].
    unfold add_atom, bind, get_self, ret, set_self. fold p. rewrite E. simpl.
    destruct (neighbours =? 0); [reflexivity|].
    destruct (calculate_distances _ _) as [[u|e] s4]; reflexivity.
  - exists (mkAtom (Atom_name nm (COUNTER s)) None 10).
    exists (appended s (mkAtom (Atom_name nm (COUNTER s)) None 10) p (S (COUNTER s))).
    split; [reflexivity|]. split; [reflexivity|].
    unfold add_atom, bind, get_self, Atom_init, set_self, ret. fold p. rewrite E. simpl.
    destruct (neighbours =? 0); [reflexivity|].
    destruct (calculate_distances _ _) as [[u|e] s4]; reflexivity.
Qed.

Lemma perform_allocated (c : call) (s : State) :
  table_allocated s -> table_allocated (snd (perform c s)).
Proof.
  intros H. destruct c as [pos atom nb|num|idx i]; unfold perform.
  - destruct (add_atom_store pos atom nb s) as [(e & ->)|(a & s3 & Hh & Ht & ->)];
      [exact H|].
    assert (H3 : table_allocated s3).
    { apply (table_allocated_extended s); [exact H|exact Ht|].
      exists []. now rewrite app_nil_r. }
    destruct (nb =? 0); [exact H3|].
    simpl. now apply calculate_distances_allocated.
  - now apply calculate_distances_allocated.
  - destruct (get_neighbours_run s s idx i H eq_refl) as (Hh & Hs & _);
      [exists []; now rewrite app_nil_r|].
    destruct (get_neighbours idx i s) as [r s1]; simpl in *.
    apply (table_allocated_extended s); [exact H| |exact Hh]. now rewrite Hs.
Qed.

Lemma run_allocated (cs : list call) (s : State) (built : bool) :
  table_allocated s -> table_allocated (fst (run cs s built)).
Proof.
  revert s built. induction cs as [|c cs IH]; intros s built H; simpl; [exact H|].
  apply IH. now apply perform_allocated.
Qed.

Lemma fresh_allocated (s : State) : fresh (self s) -> table_allocated s.
Proof. intros [_ _ _ Ht]. unfold table_allocated. rewrite Ht. constructor. Qed.

(** On every state a fresh instance reaches through [add_atom],
    [calculate_distances] and [get_neighbours], in any order and with any
    arguments, every reference of the neighbour table points to a list
    object of the store. *)
Theorem reachable_table_allocated (cs : list call) (s0 : State) :
  fresh (self s0) -> table_allocated (fst (run cs s0 false)).
Proof. intros H. apply run_allocated. now apply fresh_allocated. Qed.

(** ** The claims on the chain *)

(** [chain(a=1.0)] as the constructor leaves it. *)
Definition chain_0 : BravaisLattice :=
  mkLattice 1 [[1%float]] [[1%float]] 1%float [0%float] 0 [] [] 0 [] [].

(** [chain_1] after [calculate_distances(1)]. *)
Definition chain_1_shells : State :=
  snd (calculate_distances (Some 1) (state_of chain_1)).

(** [add_atom([0.0])], then [calculate_distances(1)]. *)
Definition add_then_calculate : list call :=
  [call_add_atom (Some [0%float]) (inr None) 0; call_calculate_distances (Some 1)].

(** [chain_1] with the shells [[1.0, 2.0]] stored. *)
Definition chain_1_shelled : BravaisLattice := set_distances [1; 2]%float chain_1.

(** The test of the loop on the chain, for the shell at distance [1.0]:
    the cells next to the origin pass. *)
Definition next_cell (c : list Z * Z) : bool :=
  match fst c with
  | [m] => Z.abs m =? 1
  | _ => false
  end.

Lemma calculate_neighbours_candidates_witness :
  calculate_neighbours (Some [0]) 0 0 false (state_of chain_1_shelled)
  = (Return [Tuple [-1] 0; Tuple [1] 0], state_of chain_1_shelled).
Proof.
  destruct (calculate_neighbours_candidates chain_1_shelled [0] 0 0 1%float
              (state_of chain_1_shelled) eq_refl eq_refl eq_refl)
    as (cands & Hc & _ & _ & Hret & _).
  vm_compute in Hc. injection Hc as <-.
  rewrite (Hret next_cell); [reflexivity|].
  intros c Hin. simpl in Hin.
  repeat (destruct Hin as [<-|Hin]; [vm_compute; reflexivity|]).
  destruct Hin.
Defined.

(** C3 as the claim words it: [[3]] lies within [0 + 3] of the origin [[0]]
    of the chain, and is no candidate of shell [0]. *)
Lemma calculate_neighbours_candidates_not_within_3 :
  within (0 + 3) [3] [0]
  /\ 0 <= 0 < Z.of_nat (n_base chain_1)
  /\ exists cands,
      _neighbour_range chain_1 (Some [0]) 0 = Return cands
      /\ ~ In ([3], 0) cands.
Proof.
  split; [repeat constructor; simpl; lia|]. split; [simpl; lia|].
  eexists. split; [vm_compute; reflexivity|].
  simpl. intuition congruence.
Qed.

Lemma calculate_distances_shells_increasing_witness :
  Increasing (distances (self chain_1_shells))
  /\ Forall (fun d => (0 <? d)%float = true) (distances (self chain_1_shells))
  /\ Forall (fun d => (d =? 0)%float = false) (distances (self chain_1_shells)).
Proof.
  eapply (calculate_distances_shells_increasing (Some 1) (state_of chain_1)).
  - vm_compute. reflexivity.
  - vm_compute. reflexivity.
  - repeat constructor.
Defined.

Lemma calculate_distances_zero_present_witness :
  exists s', calculate_distances (Some 1) (state_of chain_1) = (Return tt, s').
Proof.
  apply (calculate_distances_zero_present (Some 1) (state_of chain_1)).
  - constructor; simpl; repeat constructor.
  - discriminate.
Defined.

Lemma configuration_errors_witness :
  fresh (self (state_of chain_0))
  /\ (raises_configuration_error
        (fst (get_neighbours [0; 0] 0
                (fst (run add_then_calculate (state_of chain_0) false))))
      <-> snd (run add_then_calculate (state_of chain_0) false) = false).
Proof.
  assert (F : fresh (self (state_of chain_0))) by (constructor; reflexivity).
  split; [exact F|].
  exact (proj1 (proj1 (proj2 (configuration_errors add_then_calculate
                                (state_of chain_0) F)) [0; 0] 0)).
Defined.

Lemma get_neighbours_keeps_table_witness :
  table_allocated chain_1_shells
  /\ table_value (snd (get_neighbours [5; 0] 0 chain_1_shells))
     = table_value chain_1_shells.
Proof.
  assert (A : table_allocated chain_1_shells).
  { unfold table_allocated. vm_compute. repeat constructor. }
  split; [exact A|].
  exact (proj1 (proj2 (proj2 (get_neighbours_keeps_table chain_1_shells [5; 0] 0 A)))).
Defined.

(** * The atomic basis *)

(** ** What [calculate_distances] leaves alone *)

(** The attributes [calculate_distances] does not assign. *)
Definition same_geometry (L L' : BravaisLattice) : Prop :=
  dim L' = dim L /\ vectors L' = vectors L /\ _vectors_inv L' = _vectors_inv L
  /\ cell_volume L' = cell_volume L /\ origin L' = origin L
  /\ n_base L' = n_base L /\ atoms L' = atoms L
  /\ atom_positions L' = atom_positions L.

Lemma same_geometry_refl (L : BravaisLattice) : same_geometry L L.
Proof. repeat split. Qed.

Lemma calculate_distances_same_geometry (num_dist : option Z) (s : State) :
  same_geometry (self s) (self (snd (calculate_distances num_dist s))).
Proof.
  rewrite calculate_distances_unfold. cbv zeta.
  destruct (_ =? 0); [apply same_geometry_refl|].
  destruct (rounded_distances _ _) as [ds|e]; [|apply same_geometry_refl].
  destruct (py.remove _ _ _) as [nonzero|]; [|apply same_geometry_refl].
  set (s1 := with_shells s _ _).
  assert (Hk := keeps_build_table (self s1) s1).
  destruct (build_table (self s1) s1) as [[nb|e] s2]; simpl in *;
    rewrite Hk; repeat split.
Qed.

(** ** [add_atom], case by case *)

Definition occupied (L : BravaisLattice) (p : ndarray) : bool :=
  existsb (np.all_eq p) (atom_positions L).

(** The atom [add_atom] appends, and the counter it leaves. *)
Definition new_atom (atom : Atom + option string) (c : nat) : Atom * nat :=
  match atom with
  | inl a => (a, c)
  | inr nm => (mkAtom (Atom_name nm c) None 10, S c)
  end.

Lemma add_atom_cases (pos : option ndarray) (atom : Atom + option string)
  (neighbours : Z) (s : State) :
  let p := position_of (self s) pos in
  let a := fst (new_atom atom (COUNTER s)) in
  let s3 := appended s a p (snd (new_atom atom (COUNTER s))) in
  add_atom pos atom neighbours s
  = if occupied (self s) p
    then (Raise (ValueError "Position {pos} already occupied!" p), s)
    else if neighbours =? 0 then (Return a, s3)
         else (match fst (calculate_distances (Some neighbours) s3) with
               | Return _ => Return a
               | Raise e => Raise e
               end, snd (calculate_distances (Some neighbours) s3)).
Proof.
  cbv zeta. unfold occupied.
  set (p := position_of (self s) pos).
  destruct (existsb (np.all_eq p) (atom_positions (self s))) eqn:E.
  { unfold add_atom, bind, get_self. fold p. rewrite E. reflexivity. }
  destruct atom as [a|nm].
  - unfold add_atom, bind, get_self, ret, set_self. fold p. rewrite E. simpl.
    destruct (neighbours =? 0); [reflexivity|].
    destruct (calculate_distances _ _) as [[u|e] s4]; reflexivity.
  - unfold add_atom, bind, get_self, Atom_init, set_self, ret. fold p. rewrite E. simpl.
    destruct (neighbours =? 0); [reflexivity|].
    destruct (calculate_distances _ _) as [[u|e] s4]; reflexivity.
Qed.

(** The instance after a call of [add_atom] that found the position free:
    the atom and the position are appended, the count follows, whether
    or not the call of [calculate_distances] that may follow returns. *)
Lemma add_atom_appended (pos : option ndarray) (atom : Atom + option string)
  (neighbours : Z) (s : State) :
  let p := position_of (self s) pos in
  let L' := self (snd (add_atom pos atom neighbours s)) in
  occupied (self s) p = false ->
  atoms L' = atoms (self s) ++ [fst (new_atom atom (COUNTER s))]
  /\ atom_positions L' = atom_positions (self s) ++ [p]
  /\ n_base L' = S (length (atom_positions (self s)))
  /\ vectors L' = vectors (self s)
  /\ dim L' = dim (self s).
Proof.
  cbv zeta. intros Hfree. rewrite add_atom_cases. cbv zeta. rewrite Hfree.
  set (s3 := appended s _ _ _).
  assert (H3 : atoms (self s3) = atoms (self s) ++ [fst (new_atom atom (COUNTER s))]
               /\ atom_positions (self s3)
                  = atom_positions (self s) ++ [position_of (self s) pos]
               /\ n_base (self s3) = S (length (atom_positions (self s)))
               /\ vectors (self s3) = vectors (self s)
               /\ dim (self s3) = dim (self s)).
  { subst s3. simpl. repeat split. rewrite length_app. simpl. lia. }
  destruct (neighbours =? 0); [exact H3|]. simpl snd.
  destruct (calculate_distances_same_geometry (Some neighbours) s3)
    as (Hd & Hv & _ & _ & _ & Hn & Ha & Hp).
  rewrite Ha, Hp, Hn, Hv, Hd. exact H3.
Qed.

(** ** Positions of the basis *)

(** No two positions of the list are equal ([np.all(p == q)]): each one
    differs from every earlier one. *)
Definition positions_differ (ps : list ndarray) : Prop :=
  forall i j pi pj, (i < j)%nat ->
    nth_error ps i = Some pi -> nth_error ps j = Some pj ->
    np.all_eq pj pi = false.

Lemma positions_differ_snoc (ps : list ndarray) (p : ndarray) :
  positions_differ ps -> existsb (np.all_eq p) ps = false ->
  positions_differ (ps ++ [p]).
Proof.
  intros Hps Hp i j pi pj Hij Hi Hj.
  assert (Hjl : (j < length (ps ++ [p]))%nat)
    by (apply nth_error_Some; congruence).
  rewrite length_app in Hjl. simpl in Hjl.
  rewrite nth_error_app1 in Hi by lia.
  destruct (Nat.eq_dec j (length ps)) as [->|Hne].
  - rewrite nth_error_app2, Nat.sub_diag in Hj by lia. simpl in Hj.
    inversion Hj; subst pj.
    destruct (np.all_eq p pi) eqn:E; [|reflexivity].
    assert (existsb (np.all_eq p) ps = true); [|congruence].
    apply existsb_exists. exists pi. split; [|exact E].
    eapply nth_error_In; eassumption.
  - rewrite nth_error_app1 in Hj by lia. exact (Hps i j pi pj Hij Hi Hj).
Qed.

(** On a basis whose positions have one shape, to which a position of
    that shape is added (found occupied or not), the positions are still
    pairwise different and of that shape. *)
Theorem add_atom_positions_differ (pos : option ndarray)
  (atom : Atom + option string) (neighbours : Z) (s : State) (d : nat) :
  Forall (fun q => length q = d) (atom_positions (self s)) ->
  length (position_of (self s) pos) = d ->
  positions_differ (atom_positions (self s)) ->
  let ps' := atom_positions (self (snd (add_atom pos atom neighbours s))) in
  positions_differ ps' /\ Forall (fun q => length q = d) ps'.
Proof.
  intros Hshape Hp H. cbv zeta.
  destruct (occupied (self s) (position_of (self s) pos)) eqn:E.
  - rewrite add_atom_cases. cbv zeta. rewrite E. split; assumption.
  - destruct (add_atom_appended pos atom neighbours s E) as (_ & -> & _).
    split; [now apply positions_differ_snoc|].
    apply Forall_app. split; [assumption | now constructor].
Qed.

Lemma add_atom_positions_differ_witness :
  let s := state_of chain_1 in
  let ps' := atom_positions (self (snd (add_atom (Some [0.5%float]) (inr None) 0 s))) in
  positions_differ ps' /\ Forall (fun q => length q = 1%nat) ps'.
Proof.
  apply (add_atom_positions_differ (Some [0.5%float]) (inr None) 0 (state_of chain_1) 1).
  - repeat constructor.
  - reflexivity.
  - intros i j pi pj Hij Hi Hj. simpl in Hi, Hj.
    destruct j as [|j]; [lia|]. destruct j; discriminate.
Defined.

(** ** The same position twice *)


Lemma all_eq_nan (p q : ndarray) :
  Exists (fun x => is_nan x = true) p -> np.all_eq p q = false.
Proof.
  intros H. revert q. induction H as [x p Hx|x p _ IH]; intros [|y q]; simpl;
    try reflexivity.
  - replace (x =? y)%float with false; [reflexivity|].
    symmetry. destruct (x =? y)%float eqn:E; [|reflexivity].
    apply eqb_key in E as (Hr & _). apply is_nan_real in Hr. congruence.
  - rewrite IH. apply andb_false_r.
Qed.




(** A position with a NaN coordinate equals no position of its shape,
    itself included: [add_atom] never finds it occupied, and appends it each
    time it is passed. *)
Theorem add_atom_nan_position (pos : option ndarray)
  (atom : Atom + option string) (neighbours : Z) (s : State) :
  let p := position_of (self s) pos in
  Forall (fun q => length q = length p) (atom_positions (self s)) ->
  Exists (fun x => is_nan x = true) p ->
  atom_positions (self (snd (add_atom pos atom neighbours s)))
  = atom_positions (self s) ++ [p].
Proof.
  cbv zeta. intros _ Hnan.
  apply (add_atom_appended pos atom neighbours s).
  unfold occupied. destruct (existsb _ _) eqn:E; [|reflexivity].
  apply existsb_exists in E as (q & _ & Hq).
  now rewrite (all_eq_nan _ q Hnan) in Hq.
Qed.

Lemma add_atom_nan_position_witness :
  let s := state_of (set_atom_positions [[nan]] chain_1) in
  atom_positions (self (snd (add_atom (Some [nan]) (inr None) 0 s)))
  = [[nan]; [nan]].
Proof.
  apply (add_atom_nan_position (Some [nan]) (inr None) 0
           (state_of (set_atom_positions [[nan]] chain_1))).
  - repeat constructor.
  - constructor. reflexivity.
Defined.

(** ** The names of the atoms *)

Definition keeps_counter {A} (c : M A) : Prop :=
  forall s, COUNTER (snd (c s)) = COUNTER s.

Lemma counter_bind {A B} (c : M A) (k : A -> M B) :
  keeps_counter c -> (forall a, keeps_counter (k a)) -> keeps_counter (bind c k).
Proof.
  intros Hc Hk s. unfold bind. specialize (Hc s).
  destruct (c s) as [[a|e] s1]; simpl in *; [|assumption].
  rewrite (Hk a s1). assumption.
Qed.

Lemma counter_mapM {A B} (f : A -> M B) (l : list A) :
  (forall x, keeps_counter (f x)) -> keeps_counter (mapM f l).
Proof.
  intros Hf. induction l as [|x l IH]; simpl.
  - intros s. reflexivity.
  - apply counter_bind; [apply Hf|]. intros y.
    apply counter_bind; [exact IH|]. intros ys s. reflexivity.
Qed.

Lemma counter_build_table (L : BravaisLattice) : keeps_counter (build_table L).
Proof.
  unfold build_table. apply counter_mapM. intros alpha.
  apply counter_mapM. intros i.
  apply counter_bind; [|intros r s; reflexivity].
  unfold calculate_neighbours.
  apply counter_bind; [intros s; reflexivity|]. intros L0.
  apply counter_bind; [intros s; reflexivity|]. intros indices.
  apply counter_mapM. intros idx1.
  apply counter_bind; intros; intros s; reflexivity.
Qed.

Lemma counter_calculate_distances (num_dist : option Z) :
  keeps_counter (calculate_distances num_dist).
Proof.
  intros s. rewrite calculate_distances_unfold. cbv zeta.
  destruct (_ =? 0); [reflexivity|].
  destruct (rounded_distances _ _) as [ds|e]; [|reflexivity].
  destruct (py.remove _ _ _) as [nonzero|]; [|reflexivity].
  set (s1 := with_shells s _ _).
  assert (Hk := counter_build_table (self s1) s1).
  destruct (build_table (self s1) s1) as [[nb|e] s2]; simpl in *; exact Hk.
Qed.

(** [str] of the counter is one-to-one. *)
Lemma Atom_name_auto_inj (c c' : nat) :
  Atom_name None c = Atom_name None c' -> c = c'.
Proof.
  unfold Atom_name. intros H.
  apply Unsigned.to_uint_inj.
  assert (E : Some (Nat.to_uint c) = Some (Nat.to_uint c'))
    by (rewrite <- !NilEmpty.usu; now rewrite H).
  now inversion E.
Qed.

(** The counter after [add_atom]: one more when the call constructed an
    [Atom], the same otherwise. *)
Lemma add_atom_counter (pos : option ndarray) (atom : Atom + option string)
  (neighbours : Z) (s : State) (a : Atom) :
  fst (add_atom pos atom neighbours s) = Return a ->
  a = fst (new_atom atom (COUNTER s))
  /\ COUNTER (snd (add_atom pos atom neighbours s)) = snd (new_atom atom (COUNTER s)).
Proof.
  rewrite add_atom_cases. cbv zeta.
  destruct (occupied _ _); [discriminate|].
  destruct (neighbours =? 0).
  - simpl. intros [= <-]. split; reflexivity.
  - simpl. rewrite counter_calculate_distances.
    destruct (fst (calculate_distances _ _)); [|discriminate].
    intros [= <-]. split; reflexivity.
Qed.

(** Two atoms that two calls of [add_atom] construct without a name, one
    call after the other on the same instance, have different names. *)
Theorem add_atom_auto_names_differ
  (pos1 pos2 : option ndarray) (n1 n2 : Z) (s : State) (a1 a2 : Atom) :
  let r1 := add_atom pos1 (inr None) n1 s in
  let r2 := add_atom pos2 (inr None) n2 (snd r1) in
  fst r1 = Return a1 -> fst r2 = Return a2 -> name a1 <> name a2.
Proof.
  cbv zeta. intros H1 H2.
  apply add_atom_counter in H1 as [-> Hc].
  apply add_atom_counter in H2 as [-> _].
  rewrite Hc. simpl. intros E. apply Atom_name_auto_inj in E. lia.
Qed.

Lemma add_atom_auto_names_differ_witness :
  name (mkAtom "0" None 10) <> name (mkAtom "1" None 10).
Proof.
  apply (add_atom_auto_names_differ (Some [0%float]) (Some [0.5%float]) 0 0
           (state_of chain_0)).
  - reflexivity.
  - reflexivity.
Defined.

(** * The contents of the neighbour table *)

(** [[*idx1[0], idx1[1]]]: the list object stored for an index. *)
Definition entry_of (idx1 : list Z * Z) : list Z := fst idx1 ++ [snd idx1].

(** [self._base_neighbors[alpha][dist_idx]], by value. *)
Definition stored (s : State) (alpha dist_idx : Z) : outcome (list (list Z)) :=
  site <-! py.getitem (_base_neighbors (self s)) alpha ;;
  entries <-! py.getitem site dist_idx ;;
  mapO (deref (heap s)) entries.

Definition extends (h h' : list (list Z)) : Prop := exists ext, h' = h ++ ext.

Lemma extends_refl (h : list (list Z)) : extends h h.
Proof. exists []. now rewrite app_nil_r. Qed.

Lemma extends_trans (h1 h2 h3 : list (list Z)) :
  extends h1 h2 -> extends h2 h3 -> extends h1 h3.
Proof. intros (e1 & ->) (e2 & ->). exists (e1 ++ e2). now rewrite app_assoc. Qed.

Lemma deref_all_extends (h h' : list (list Z)) (addrs : list addr) (ls : list (list Z)) :
  extends h h' -> mapO (deref h) addrs = Return ls -> mapO (deref h') addrs = Return ls.
Proof.
  intros (ext & ->). revert ls. induction addrs as [|a addrs IH]; intros ls; simpl.
  - auto.
  - intros H. apply obind_Return in H as (l & Hl & H).
    apply obind_Return in H as (ls' & Hls & H).
    rewrite (IH _ Hls).
    unfold deref in *. destruct (nth_error h a) as [l0|] eqn:E; [|discriminate].
    rewrite nth_error_app1 by (apply nth_error_Some; congruence).
    rewrite E. inversion Hl; subst. exact H.
Qed.

Lemma deref_seq (pre ls : list (list Z)) :
  mapO (deref (pre ++ ls)) (seq (length pre) (length ls)) = Return ls.
Proof.
  revert pre. induction ls as [|l ls IH]; intros pre; simpl; [reflexivity|].
  unfold deref at 1. rewrite nth_error_app2, Nat.sub_diag by lia. simpl.
  specialize (IH (pre ++ [l])). rewrite <- app_assoc, length_app in IH. simpl in IH.
  rewrite Nat.add_1_r in IH. now rewrite IH.
Qed.

Lemma refs_of_Ref (l : list addr) : refs_of (map Ref l) = l.
Proof. unfold refs_of. induction l as [|a l IH]; simpl; [reflexivity | now rewrite IH]. Qed.

(** [calculate_neighbours(..., array=True)]: the indices found become new
    list objects, in order, at the end of the store. *)
Lemma calculate_neighbours_array_run (n : option (list Z)) (alpha i : Z) (t : State) :
  calculate_neighbours n alpha i true t
  = match neighbour_matches (self t) n alpha i with
    | Return found =>
        (Return (map Ref (seq (length (heap t)) (length found))),
         mkState (self t) (heap t ++ map entry_of found) (COUNTER t))
    | Raise e => (Raise e, t)
    end.
Proof.
  assert (E : calculate_neighbours n alpha i true t
              = match neighbour_matches (self t) n alpha i with
                | Return found =>
                    mapM (fun idx1 : list Z * Z =>
                            a <- alloc (fst idx1 ++ [snd idx1]) ;; ret (Ref a)) found t
                | Raise e => (Raise e, t)
                end).
  { unfold calculate_neighbours, bind at 1 2, get_self, lift.
    destruct (neighbour_matches (self t) n alpha i); reflexivity. }
  rewrite E. clear E.
  destruct (neighbour_matches (self t) n alpha i) as [found|e]; [|reflexivity].
  revert t. induction found as [|x found IH]; intros t.
  - simpl. rewrite app_nil_r. now destruct t.
  - simpl mapM. unfold bind at 1. unfold bind at 1, alloc at 1, ret at 1.
    unfold bind at 1. rewrite IH. simpl.
    rewrite length_app, Nat.add_1_r, <- app_assoc. reflexivity.
Qed.

(** The property of a per-item result, stable when the store grows, is kept
    along a loop that only adds to the store. *)
Lemma mapM_Forall2 {A B} (f : A -> M B) (P : A -> B -> list (list Z) -> Prop)
  (L : BravaisLattice) (l : list A) :
  (forall x y h h', extends h h' -> P x y h -> P x y h') ->
  (forall x t y t', self t = L -> f x t = (Return y, t') ->
                    self t' = L /\ extends (heap t) (heap t') /\ P x y (heap t')) ->
  forall t ys t', self t = L -> mapM f l t = (Return ys, t') ->
    self t' = L /\ extends (heap t) (heap t')
    /\ Forall2 (fun x y => P x y (heap t')) l ys.
Proof.
  intros Hmono Hf. induction l as [|x l IH]; intros t ys t' Ht; simpl.
  - intros [= <- <-]. split; [assumption|]. split; [apply extends_refl | constructor].
  - unfold bind at 1. destruct (f x t) as [[y|e] t1] eqn:E1; [|discriminate].
    unfold bind at 1. destruct (mapM f l t1) as [[zs|e] t2] eqn:E2; [|discriminate].
    intros [= <- <-].
    destruct (Hf x t y t1 Ht E1) as (H1 & Hx1 & Py).
    destruct (IH t1 zs t2 H1 E2) as (H2 & Hx2 & Pzs).
    split; [assumption|]. split; [eapply extends_trans; eassumption|].
    constructor; [|assumption]. eapply Hmono; eassumption.
Qed.

Lemma Forall2_nth_error {A B} (P : A -> B -> Prop) (xs : list A) (ys : list B)
  (k : nat) (x : A) :
  Forall2 P xs ys -> nth_error xs k = Some x ->
  exists y, nth_error ys k = Some y /\ P x y.
Proof.
  intros H. revert k. induction H as [|x0 y0 xs ys Hxy _ IH]; intros k.
  - destruct k; discriminate.
  - destruct k as [|k]; simpl.
    + intros [= <-]. eauto.
    + apply IH.
Qed.

Lemma nth_error_range (n a : Z) :
  0 <= a < n -> nth_error (py.range n) (Z.to_nat a) = Some a.
Proof.
  intros H. unfold py.range. rewrite nth_error_map.
  rewrite (nth_error_nth' _ 0%nat) by (rewrite length_seq; lia).
  rewrite seq_nth by lia. simpl. f_equal. lia.
Qed.

Lemma Forall2_range_getitem {B} (P : Z -> B -> Prop) (n : Z) (ys : list B) (a : Z) :
  Forall2 P (py.range n) ys -> 0 <= a < n ->
  exists y, py.getitem ys a = Return y /\ P a y.
Proof.
  intros H Ha.
  destruct (Forall2_nth_error P _ _ _ _ H (nth_error_range n a Ha)) as (y & Hy & Py).
  exists y. split; [|assumption].
  rewrite <- (Z2Nat.id a) by lia. now apply getitem_nat.
Qed.

(** The cell of atom [alpha] and shell [i] holds what the matcher finds. *)
Definition cell_holds (L : BravaisLattice) (alpha i : Z) (addrs : list addr)
  (h : list (list Z)) : Prop :=
  exists found, neighbour_matches L None alpha i = Return found
                /\ mapO (deref h) addrs = Return (map entry_of found).

Definition row_holds (L : BravaisLattice) (alpha : Z) (row : list (list addr))
  (h : list (list Z)) : Prop :=
  Forall2 (fun i addrs => cell_holds L alpha i addrs h)
          (py.range (py.len (distances L))) row.

Lemma cell_holds_extends L alpha i addrs h h' :
  extends h h' -> cell_holds L alpha i addrs h -> cell_holds L alpha i addrs h'.
Proof.
  intros Hx (found & Hf & Hd). exists found. split; [assumption|].
  eapply deref_all_extends; eassumption.
Qed.

Lemma row_holds_extends L alpha row h h' :
  extends h h' -> row_holds L alpha row h -> row_holds L alpha row h'.
Proof.
  intros Hx H. unfold row_holds in *.
  eapply Forall2_impl; [|exact H]. intros i addrs. now apply cell_holds_extends.
Qed.

Lemma build_table_holds (L : BravaisLattice) (t t' : State)
  (nb : list (list (list addr))) :
  self t = L -> build_table L t = (Return nb, t') ->
  self t' = L /\ extends (heap t) (heap t')
  /\ Forall2 (fun alpha row => row_holds L alpha row (heap t'))
             (py.range (Z.of_nat (n_base L))) nb.
Proof.
  unfold build_table.
  apply (mapM_Forall2 _ (fun alpha row h => row_holds L alpha row h) L).
  - intros alpha row h h'. apply row_holds_extends.
  - intros alpha u row u' Hu.
    apply (mapM_Forall2 _ (fun i addrs h => cell_holds L alpha i addrs h) L);
      [|idtac|exact Hu].
    + intros i addrs h h'. apply cell_holds_extends.
    + intros i v addrs v' Hv. unfold bind.
      rewrite calculate_neighbours_array_run. rewrite Hv.
      destruct (neighbour_matches L None alpha i) as [found|e] eqn:E; [|discriminate].
      unfold ret. intros [= <- <-]. simpl.
      split; [reflexivity|]. split; [now exists (map entry_of found)|].
      exists found. split; [assumption|].
      rewrite refs_of_Ref. rewrite <- (length_map entry_of found).
      apply deref_seq.
Qed.

Lemma filterO_incl {A} (f : A -> outcome bool) (l r : list A) :
  filterO f l = Return r -> incl r l.
Proof.
  revert r. induction l as [|x l IH]; intros r H; simpl in H.
  - inversion H. apply incl_nil_l.
  - apply obind_Return in H as (b & _ & H).
    apply obind_Return in H as (r' & Hr & H).
    apply IH in Hr. inversion H; subst.
    destruct b.
    + apply incl_cons; [now left|]. now apply incl_tl.
    + now apply incl_tl.
Qed.

(** The translation vector of a neighbour found from the origin has one
    coordinate per dimension. *)
Lemma neighbour_matches_shape (L : BravaisLattice) (alpha i : Z)
  (found : list (list Z * Z)) :
  neighbour_matches L None alpha i = Return found ->
  Forall (fun idx1 => length (fst idx1) = dim L) found.
Proof.
  unfold neighbour_matches. intros H.
  apply obind_Return in H as (dist & _ & H).
  apply obind_Return in H as (cands & Hc & H).
  apply filterO_incl in H.
  destruct (_neighbour_range_spec L (repeat 0 (dim L)) i (repeat_length _ _))
    as (cands' & Hc' & Hin).
  rewrite Hc in Hc'. inversion Hc'; subst cands'.
  apply Forall_forall. intros [m a] Hm. apply H, Hin in Hm as [Hw _].
  unfold within in Hw. apply Forall2_length in Hw.
  simpl. now rewrite Hw, repeat_length.
Qed.

Lemma calculate_distances_returned (num_dist : option Z) (s s' : State) :
  calculate_distances num_dist s = (Return tt, s') ->
  exists ds nb s2,
    let s1 := with_shells s ds (shell_count (self s) num_dist) in
    build_table (self s1) s1 = (Return nb, s2)
    /\ s' = mkState (set_base_neighbors nb (self s2)) (heap s2) (COUNTER s2).
Proof.
  rewrite calculate_distances_unfold. cbv zeta.
  destruct (_ =? 0); [discriminate|].
  destruct (rounded_distances _ _) as [ds|e]; [|discriminate].
  destruct (py.remove _ _ _) as [nonzero|]; [|discriminate].
  set (s1 := with_shells s _ _).
  destruct (build_table (self s1) s1) as [[nb|e] s2] eqn:E; [|discriminate].
  intros [= <-]. eexists. exists nb, s2. split; [exact E | reflexivity].
Qed.

Lemma neighbour_matches_table (nb : list (list (list addr))) (L : BravaisLattice)
  (n : option (list Z)) (alpha i : Z) :
  neighbour_matches (set_base_neighbors nb L) n alpha i = neighbour_matches L n alpha i.
Proof. reflexivity. Qed.

Lemma calculate_distances_table (num_dist : option Z) (s s' : State)
  (alpha i : Z) :
  calculate_distances num_dist s = (Return tt, s') ->
  0 <= alpha < Z.of_nat (n_base (self s')) ->
  0 <= i < py.len (distances (self s')) ->
  exists found,
    neighbour_matches (self s') None alpha i = Return found
    /\ stored s' alpha i = Return (map entry_of found).
Proof.
  intros H Ha Hi.
  destruct (calculate_distances_returned _ _ _ H) as (ds & nb & s2 & Hb & ->).
  cbv zeta in Hb.
  set (s1 := with_shells s ds (shell_count (self s) num_dist)) in *.
  destruct (build_table_holds (self s1) s1 s2 nb eq_refl Hb) as (H2 & _ & Hrows).
  simpl in Ha, Hi. rewrite H2 in Ha, Hi.
  destruct (Forall2_range_getitem _ _ _ alpha Hrows Ha) as (row & Hrow & Hcells).
  destruct (Forall2_range_getitem _ _ _ i Hcells Hi) as (addrs & Haddrs & found & Hf & Hd).
  exists found. simpl self. rewrite H2, neighbour_matches_table.
  split; [exact Hf|].
  unfold stored. simpl. rewrite Hrow. simpl. rewrite Haddrs. simpl. exact Hd.
Qed.

(** After a call of [calculate_distances] that returned, the table entry of
    every basis atom [alpha] and every stored shell [i] holds, as list
    objects [[*n, alpha1]] and in the order of the search, exactly the
    indices that [calculate_neighbours(alpha=alpha, dist_idx=i)] finds on
    the instance. *)
Theorem calculate_distances_fills_table (num_dist : option Z) (s s' : State)
  (alpha i : Z) :
  calculate_distances num_dist s = (Return tt, s') ->
  0 <= alpha < Z.of_nat (n_base (self s')) ->
  0 <= i < py.len (distances (self s')) ->
  exists found,
    neighbour_matches (self s') None alpha i = Return found
    /\ stored s' alpha i = Return (map entry_of found).
Proof. exact (calculate_distances_table num_dist s s' alpha i). Qed.

Lemma calculate_distances_fills_table_witness :
  exists found,
    neighbour_matches (self chain_1_shells) None 0 0 = Return found
    /\ stored chain_1_shells 0 0 = Return (map entry_of found).
Proof.
  apply (calculate_distances_fills_table (Some 1) (state_of chain_1)).
  - vm_compute. reflexivity.
  - vm_compute. split; [discriminate | reflexivity].
  - vm_compute. split; [discriminate | reflexivity].
Defined.

(** ** [get_neighbours] translates the stored neighbours *)

(** [[*(m + n), alpha1]]. *)
Definition shifted (n : list Z) (idx1 : list Z * Z) : list Z :=
  map (fun p => fst p + snd p) (combine (fst idx1) n) ++ [snd idx1].

Lemma slice_last_snoc {A} (m : list A) (b : A) : py.slice_last (m ++ [b]) = [b].
Proof.
  unfold py.slice_last. rewrite length_app. simpl.
  replace (length m + 1 - 1)%nat with (length m + 0)%nat by lia.
  rewrite skipn_app, Nat.add_0_r, skipn_all.
  replace (length m - length m)%nat with 0%nat by lia. reflexivity.
Qed.

Lemma moved_entry_shifted (n : list Z) (idx1 : list Z * Z) :
  length (fst idx1) = length n ->
  moved_entry n (entry_of idx1) = Return (shifted n idx1).
Proof.
  intros H. unfold moved_entry, entry_of, shifted.
  rewrite removelast_last, slice_last_snoc.
  now rewrite (broadcast_same_length _ _ _ _ H).
Qed.

Lemma getitem_last {A} (n : list A) (a : A) : py.getitem (n ++ [a]) (-1) = Return a.
Proof.
  unfold py.getitem, py.len. rewrite length_app.
  change (-1 <? 0) with true. cbv iota.
  replace (-1 + Z.of_nat (length n + length [a])) with (Z.of_nat (length n))
    by (change (length [a]) with 1%nat; lia).
  destruct (Z.ltb_spec (Z.of_nat (length n)) 0); [lia|].
  now rewrite Nat2Z.id, nth_error_snoc.
Qed.

Lemma moved_entries_stored (n : list Z) (h : list (list Z)) (entries : list addr)
  (ls : list (list Z)) :
  mapO (deref h) entries = Return ls ->
  moved_entries n h entries = mapO (moved_entry n) ls.
Proof.
  unfold moved_entries. revert ls. induction entries as [|a entries IH]; intros ls; simpl.
  - intros [= <-]. reflexivity.
  - intros H. apply obind_Return in H as (l & Hl & H).
    apply obind_Return in H as (ls' & Hls & H). inversion H; subst.
    rewrite Hl. simpl. now rewrite (IH _ Hls).
Qed.

Lemma table_holds_allocated (s : State) :
  (forall site entries, In site (_base_neighbors (self s)) -> In entries site ->
                        exists ls, mapO (deref (heap s)) entries = Return ls) ->
  table_allocated s.
Proof.
  intros H. unfold table_allocated.
  apply Forall_forall. intros site Hs. apply Forall_forall. intros entries He.
  destruct (H site entries Hs He) as (ls & Hls). clear H He Hs.
  revert ls Hls. induction entries as [|a entries IH]; intros ls Hls; [constructor|].
  simpl in Hls. apply obind_Return in Hls as (l & Hl & Hls).
  apply obind_Return in Hls as (ls' & Hls' & _).
  constructor.
  - unfold deref in Hl. apply nth_error_Some.
    destruct (nth_error (heap s) a); [discriminate | discriminate Hl].
  - eapply IH; eauto.
Qed.

Lemma Forall2_Forall_r {A B} (P : A -> B -> Prop) (Q : B -> Prop)
  (xs : list A) (ys : list B) :
  (forall x y, P x y -> Q y) -> Forall2 P xs ys -> Forall Q ys.
Proof. intros H. induction 1; constructor; eauto. Qed.

Lemma calculate_distances_returned_allocated (num_dist : option Z) (s s' : State) :
  calculate_distances num_dist s = (Return tt, s') -> table_allocated s'.
Proof.
  intros H.
  destruct (calculate_distances_returned _ _ _ H) as (ds & nb & s2 & Hb & ->).
  cbv zeta in Hb.
  set (s1 := with_shells s ds (shell_count (self s) num_dist)) in *.
  destruct (build_table_holds (self s1) s1 s2 nb eq_refl Hb) as (_ & _ & Hrows).
  apply table_holds_allocated. simpl.
  assert (Hall : Forall (Forall (fun entries =>
                   exists ls, mapO (deref (heap s2)) entries = Return ls)) nb).
  { eapply Forall2_Forall_r; [|exact Hrows]. intros alpha row Hrow.
    eapply Forall2_Forall_r; [|exact Hrow]. intros i addrs (found & _ & Hd). eauto. }
  intros site entries Hs He. rewrite Forall_forall in Hall.
  specialize (Hall site Hs). rewrite Forall_forall in Hall. exact (Hall entries He).
Qed.

Lemma mapO_shifted (n : list Z) (found : list (list Z * Z)) :
  Forall (fun idx1 => length (fst idx1) = length n) found ->
  mapO (moved_entry n) (map entry_of found) = Return (map (shifted n) found).
Proof.
  induction 1 as [|x found Hx _ IH]; simpl; [reflexivity|].
  now rewrite (moved_entry_shifted n x Hx), IH.
Qed.

(** After a call of [calculate_distances] that returned:
    [get_neighbours([*n, alpha], i)], for a translation vector [n] with one
    coordinate per dimension, an atom [alpha] of the basis and a stored shell
    [i], returns; its result is the list of the neighbours
    [calculate_neighbours] finds for atom [alpha] of the cell at the origin,
    each moved by [n], with its atom index unchanged.  The coordinates are
    kept below [2^53], where the [float64] sums of the code are the sums of
    the integers. *)
Theorem get_neighbours_translates (num_dist : option Z) (s s' : State)
  (n : list Z) (alpha i : Z) :
  calculate_distances num_dist s = (Return tt, s') ->
  length n = dim (self s') ->
  Forall (fun k => Z.abs k + i + 2 < 2 ^ 53) n ->
  0 <= alpha < Z.of_nat (n_base (self s')) ->
  0 <= i < py.len (distances (self s')) ->
  exists found,
    neighbour_matches (self s') None alpha i = Return found
    /\ result_value (get_neighbours (n ++ [alpha]) i s')
       = Return (map (shifted n) found).
Proof.
  intros H Hn _ Ha Hi.
  assert (Hall := calculate_distances_returned_allocated _ _ _ H).
  destruct (calculate_distances_returned _ _ _ H) as (ds & nb & s2 & Hb & E).
  cbv zeta in Hb.
  set (s1 := with_shells s ds (shell_count (self s) num_dist)) in *.
  destruct (build_table_holds (self s1) s1 s2 nb eq_refl Hb) as (H2 & _ & Hrows).
  assert (Hself : self s' = set_base_neighbors nb (self s1))
    by (rewrite E; simpl; now rewrite H2).
  rewrite Hself in Ha, Hi, Hn. simpl in Ha, Hi, Hn.
  destruct (Forall2_range_getitem _ _ _ alpha Hrows Ha) as (row & Hrow & Hcells).
  destruct (Forall2_range_getitem _ _ _ i Hcells Hi) as (addrs & Haddrs & found & Hf & Hd).
  exists found. rewrite Hself, neighbour_matches_table.
  split; [exact Hf|].
  destruct (get_neighbours_run s' s' (n ++ [alpha]) i Hall eq_refl (extends_refl _))
    as (_ & _ & _ & ->).
  unfold neighbours_value. rewrite Hself. simpl _base_neighbors.
  destruct nb as [|row0 rows]; [apply getitem_In in Hrow; destruct Hrow|].
  rewrite getitem_last. simpl obind. rewrite Hrow. simpl obind.
  rewrite Haddrs. simpl obind. rewrite removelast_last.
  assert (Hheap : heap s' = heap s2) by (rewrite E; reflexivity).
  rewrite Hheap. rewrite (moved_entries_stored _ _ _ _ Hd).
  apply mapO_shifted.
  apply neighbour_matches_shape in Hf.
  eapply Forall_impl; [|exact Hf]. intros idx1 Hx.
  cbv beta in Hx. subst s1. simpl in Hx, Hn. congruence.
Qed.

Lemma get_neighbours_translates_witness :
  exists found,
    neighbour_matches (self chain_1_shells) None 0 0 = Return found
    /\ result_value (get_neighbours ([5] ++ [0]) 0 chain_1_shells)
       = Return (map (shifted [5]) found).
Proof.
  apply (get_neighbours_translates (Some 1) (state_of chain_1)).
  - vm_compute. reflexivity.
  - reflexivity.
  - repeat constructor.
  - vm_compute. split; [discriminate | reflexivity].
  - vm_compute. split; [discriminate | reflexivity].
Defined.

(** * Lattices on which the claims fail *)

(** C5 as the claim words it fails on [square(a=7.0)]: the reciprocal of
    the reciprocal lattice has the basis vectors [7.000000000000001] long,
    one unit in the last place above [7.0]. *)
Lemma reciprocal_of_reciprocal_square_7 :
  exists L,
    square inv_diag 7%float = Return L
    /\ vectors L = [[7; 0]; [0; 7]]%float
    /\ reciprocal_twice inv_diag L
       = Return [[0x1.c000000000001p+2; 0]; [0; 0x1.c000000000001p+2]]%float
    /\ reciprocal_twice inv_diag L <> Return (vectors L).
Proof.
  eexists. split; [vm_compute; reflexivity|].
  split; [reflexivity|]. split; [vm_compute; reflexivity|].
  vm_compute. intros H. inversion H.
Qed.

(** C6 as the claim words it fails on [chain(a=1e-7)] with atoms at [[0.0]]
    and [[nan]]: every distance that is a number rounds to [0.0], the call
    returns, and the two shells it stores are NaN, neither increasing nor
    positive. *)
Lemma calculate_distances_nan_shells :
  exists L,
    chain inv_diag 0x1.ad7f29abcaf48p-24%float = Return L
    /\ let s1 := snd (add_atom (Some [0%float]) (inr None) 0 (state_of L)) in
       let s2 := snd (add_atom (Some [nan]) (inr None) 0 s1) in
       let r := calculate_distances (Some 1) s2 in
       fst r = Return tt
       /\ distances (self (snd r)) = [nan; nan]
       /\ ~ Increasing (distances (self (snd r)))
       /\ ~ Forall (fun d => (0 <? d)%float = true) (distances (self (snd r))).
Proof.
  eexists. split; [vm_compute; reflexivity|]. cbv zeta.
  split; [vm_compute; reflexivity|].
  match goal with
  | |- distances ?L = _ /\ _ =>
      assert (E : distances L = [nan; nan]) by (vm_compute; reflexivity)
  end.
  rewrite E. split; [reflexivity|]. split.
  - intros H. inversion H as [|x l _ Hall]; subst.
    inversion Hall as [|y l' Hlt _]; subst. vm_compute in Hlt. discriminate.
  - intros H. inversion H as [|x l Hpos _]; subst. vm_compute in Hpos. discriminate.
Qed.

(** C9 as the claim words it fails on [chain(a=1.0)] with one atom at
    [[nan]]: the basis is not empty, no rounded distance equals [0.0], and
    [distances.remove(0.0)] raises [ValueError]. *)
Lemma calculate_distances_nan_position :
  exists L,
    chain inv_diag 1%float = Return L
    /\ let s1 := snd (add_atom (Some [nan]) (inr None) 0 (state_of L)) in
       atoms (self s1) <> []
       /\ (exists ds, rounded_distances (self s1) (search_radius 1) = Return ds
                      /\ Forall (fun d => (d =? 0)%float = false) ds)
       /\ fst (calculate_distances (Some 1) s1)
          = Raise (ValueError "list.remove(x): x not in list" []).
Proof.
  eexists. split; [vm_compute; reflexivity|]. cbv zeta.
  split; [vm_compute; discriminate|].
  split; [|vm_compute; reflexivity].
  eexists. split; [vm_compute; reflexivity|].
  repeat constructor.
Qed.

(** * Instances and their histories *)

(** The value of [chain_1_shells]. *)
Definition chain_1_table : State :=
  mkState
    (mkLattice 1 [[1%float]] [[1%float]] 1%float [0%float] 1 [atom0] [[0%float]]
               1 [1; 2]%float [[[0; 1]; [2; 3]]%nat])
    [[-1; 0]; [1; 0]; [-2; 0]; [2; 0]] 0.

Example chain_1_shells_value : chain_1_shells = chain_1_table.
Proof. vm_compute. reflexivity. Qed.

(** On every state a new instance reaches through [add_atom],
    [calculate_distances] and [get_neighbours], whatever their arguments and
    whichever of them raised, [n_base] is the number of atoms, and there is
    one position per atom. *)
Theorem reachable_basis_counts (cs : list call) (s0 : State) :
  fresh (self s0) ->
  let L := self (fst (run cs s0 false)) in
  n_base L = length (atoms L) /\ length (atom_positions L) = length (atoms L).
Proof.
  intros Hf. cbv zeta.
  destruct (run_consistent cs s0 false (fresh_consistent _ Hf)) as [Hb Hp _].
  split; assumption.
Qed.

Lemma reachable_basis_counts_witness :
  let L := self (fst (run add_then_calculate (state_of chain_0) false)) in
  n_base L = length (atoms L) /\ length (atom_positions L) = length (atoms L).
Proof.
  apply (reachable_basis_counts add_then_calculate (state_of chain_0)).
  constructor; reflexivity.
Defined.

(** [calculate_distances] assigns [distances], [n_dist] and
    [_base_neighbors] only: the dimension, the basis vectors and their
    inverse, the cell volume, the origin, the atoms, their positions and
    their count are the ones before the call, whether it returns or
    raises. *)
Theorem calculate_distances_keeps_geometry (num_dist : option Z) (s : State) :
  let L := self s in
  let L' := self (snd (calculate_distances num_dist s)) in
  dim L' = dim L /\ vectors L' = vectors L /\ _vectors_inv L' = _vectors_inv L
  /\ cell_volume L' = cell_volume L /\ origin L' = origin L
  /\ n_base L' = n_base L /\ atoms L' = atoms L
  /\ atom_positions L' = atom_positions L.
Proof. exact (calculate_distances_same_geometry num_dist s). Qed.

(** ** A table older than the basis *)




(** ** The index arguments of [get_neighbours] *)




(** ** The vectors to the neighbours *)

Lemma mapO_stored {B} (h : list (list Z)) (g : list Z -> outcome B)
  (entries : list addr) (ls : list (list Z)) :
  mapO (deref h) entries = Return ls ->
  mapO (fun a => l <-! deref h a ;; g l) entries = mapO g ls.
Proof.
  revert ls. induction entries as [|a entries IH]; intros ls; simpl.
  - intros [= <-]. reflexivity.
  - intros H. apply obind_Return in H as (l & Hl & H).
    apply obind_Return in H as (ls' & Hls & H). inversion H; subst.
    rewrite Hl. simpl. now rewrite (IH _ Hls).
Qed.

Lemma mapO_map {A B C} (f : A -> B) (g : B -> outcome C) (l : list A) :
  mapO g (map f l) = mapO (fun x => g (f x)) l.
Proof. induction l as [|x l IH]; simpl; [reflexivity | now rewrite IH]. Qed.

Lemma mapO_ext {A B} (f g : A -> outcome B) (l : list A) :
  (forall x, f x = g x) -> mapO f l = mapO g l.
Proof. intros H. induction l as [|x l IH]; simpl; [reflexivity | now rewrite H, IH]. Qed.

(** [pos1 - pos0] for the neighbour [idx1] of an atom at [pos0]. *)
Definition vector_to (L : BravaisLattice) (pos0 : ndarray) (idx1 : list Z * Z)
  : outcome ndarray :=
  pos1 <-! get_position L (Some (fst idx1)) (snd idx1) ;;
  np.subtract pos1 pos0.

(** After a call of [calculate_distances] that returned,
    [get_neighbour_vectors(alpha, i)] computes, for the neighbours that
    [calculate_neighbours] finds for atom [alpha] in shell [i] and in their
    order, the position of the neighbour minus the position of the atom;
    [include_zero] puts the zero vector in front; the instance and the
    stored lists are left as they were. *)
Theorem get_neighbour_vectors_stored (num_dist : option Z) (s s' : State)
  (alpha i : Z) (include_zero : bool) :
  calculate_distances num_dist s = (Return tt, s') ->
  0 <= alpha < Z.of_nat (n_base (self s')) ->
  0 <= i < py.len (distances (self s')) ->
  exists found,
    neighbour_matches (self s') None alpha i = Return found
    /\ get_neighbour_vectors alpha i include_zero s'
       = (pos0 <-! py.getitem (atom_positions (self s')) alpha ;;
          vs <-! mapO (vector_to (self s') pos0) found ;;
          Return ((if include_zero then [np.zeros (dim (self s'))] else []) ++ vs),
          s').
Proof.
  intros H Ha Hi.
  destruct (calculate_distances_table num_dist s s' alpha i H Ha Hi)
    as (found & Hf & Hst).
  exists found. split; [exact Hf|].
  unfold stored in Hst.
  apply obind_Return in Hst as (site & Hsite & Hst).
  apply obind_Return in Hst as (entries & Hentries & Hd).
  unfold get_neighbour_vectors.
  destruct (_base_neighbors (self s')) as [|row rows] eqn:Et.
  { apply getitem_In in Hsite. destruct Hsite. }
  f_equal.
  destruct (py.getitem (atom_positions (self s')) alpha) as [pos0|e]; [|reflexivity].
  simpl obind. rewrite Hsite. simpl obind. rewrite Hentries. simpl obind.
  rewrite (mapO_stored _ (fun l => a1 <-! py.getitem l (-1) ;;
                                    pos1 <-! get_position (self s') (Some (removelast l)) a1 ;;
                                    np.subtract pos1 pos0) _ _ Hd).
  rewrite mapO_map.
  rewrite (mapO_ext _ (vector_to (self s') pos0)); [reflexivity|].
  intros [m b]. unfold entry_of, vector_to. simpl fst. simpl snd.
  rewrite getitem_last. simpl obind. now rewrite removelast_last.
Qed.

Lemma get_neighbour_vectors_stored_witness :
  exists found,
    neighbour_matches (self chain_1_table) None 0 0 = Return found
    /\ get_neighbour_vectors 0 0 true chain_1_table
       = (pos0 <-! py.getitem (atom_positions (self chain_1_table)) 0 ;;
          vs <-! mapO (vector_to (self chain_1_table) pos0) found ;;
          Return ((if true then [np.zeros (dim (self chain_1_table))] else []) ++ vs),
          chain_1_table).
Proof.
  apply (get_neighbour_vectors_stored (Some 1) (state_of chain_1) chain_1_table 0 0 true).
  - vm_compute. reflexivity.
  - vm_compute. split; [discriminate | reflexivity].
  - vm_compute. split; [discriminate | reflexivity].
Defined.

(** ** The number of shells kept, on the chain *)

Lemma calculate_distances_shell_count_witness :
  exists ds nonzero,
    rounded_distances (self (state_of chain_1))
      (search_radius (shell_count (self (state_of chain_1)) (Some 1))) = Return ds
    /\ py.remove PrimFloat.eqb 0%float
         (py.sort PrimFloat.ltb (py.set PrimFloat.eqb ds)) = Some nonzero
    /\ distances (self chain_1_table)
       = firstn (Z.to_nat (Z.max (shell_count (self (state_of chain_1)) (Some 1)) 2))
                nonzero.
Proof.
  apply (calculate_distances_shell_count (Some 1) (state_of chain_1) chain_1_table).
  vm_compute. reflexivity.
Defined.
